(** * Cache, session, rate-limiting and queueing layer of [redis-config-template.js]

    A shallow embedding of the utilities exported by
    [src/redis-config-template.js] ([cache], [sessionStore], [rateLimiter],
    [queue], [conversationCache]) over an executable model of the Redis
    commands they issue, followed by the properties of the layer.

    Conventions.
    - JavaScript documents are values of [json]; objects are finite maps, so
      that deep equality of documents is Leibniz equality.
    - The JavaScript [null] is [JNull]; [undefined] (a missing property or an
      omitted argument) is [None].
    - An [async] function is a computation in the monad [M]: it threads the
      state of the outside world (the Redis keyspace, the clock, the scheduled
      connection faults and the log of issued commands) and either returns a
      value or throws.
    - [JSON.stringify] and [JSON.parse] belong to the JavaScript runtime, not
      to the repository; they are the operations of the class [JSON], and
      what is assumed of them is the class [JSONLaws]. *)

From Stdlib Require Import ZArith Ascii String DecimalString DecimalZ DecimalPos.
From stdpp Require Import gmap strings list fin_maps.

Local Open Scope string_scope.
Local Open Scope list_scope.
Local Open Scope Z_scope.

(** ** JavaScript values *)

Module JS.

#[local] Unset Elimination Schemes.

(** Documents: what [JSON.parse] can return. Numbers are the integers;
    objects are finite maps from property names. *)
Inductive json : Type :=
  | JNull
  | JBool (b : bool)
  | JNum (n : Z)
  | JStr (s : string)
  | JArr (items : list json)
  | JObj (props : gmap string json).

#[local] Set Elimination Schemes.

(** Number of constructors of a document; the measure behind [json_ind]. *)
Fixpoint jsize (v : json) : nat :=
  match v with
  | JArr items => S (foldr (fun x acc => (jsize x + acc)%nat) 0%nat items)
  | JObj props => S (map_fold (fun _ x acc => (jsize x + acc)%nat) 0%nat props)
  | _ => 1%nat
  end.

(** [ToBoolean] of a document. *)
Definition truthy (v : json) : bool :=
  match v with
  | JNull => false
  | JBool b => b
  | JNum n => negb (n =? 0)
  | JStr s => negb (String.eqb s "")
  | JArr _ | JObj _ => true
  end.

(** Decimal rendering of an integer, as in a template literal or in the
    textual value of a Redis counter. *)
Definition string_of_Z (n : Z) : string := NilZero.string_of_int (Z.to_int n).

(** The integer written by a canonical decimal string (no sign [+], no
    leading zeros, no [-0]), if any. *)
Definition Z_of_string (s : string) : option Z :=
  match NilZero.int_of_string s with
  | Some d =>
      let n := Z.of_int d in
      if String.eqb (string_of_Z n) s then Some n else None
  | None => None
  end.

(** [v.name] for a property name that is neither an array index nor
    [length]: only objects carry such a property. *)
Definition get_prop (v : json) (name : string) : option json :=
  match v with
  | JObj props => props !! name
  | _ => None
  end.

Definition indexed {A} (f : A -> json) (l : list A) : gmap string json :=
  list_to_map (imap (fun i x => (string_of_Z (Z.of_nat i), f x)) l).

(** The own enumerable properties copied by a spread [{...v}]; [None] is
    [undefined]. Strings spread their characters, arrays their items. *)
Definition own_props (v : option json) : gmap string json :=
  match v with
  | Some (JObj props) => props
  | Some (JArr items) => indexed id items
  | Some (JStr s) =>
      indexed (fun c => JStr (String c "")) (list_ascii_of_string s)
  | _ => ∅
  end.

(** [{...a, ...b}]: the properties of [b] win. *)
Definition spread (a b : gmap string json) : gmap string json := b ∪ a.

(** [s.replace(pat, rep)] for a string pattern: the first occurrence only. *)
Fixpoint drop_chars (n : nat) (s : string) : string :=
  match n, s with
  | S n', String _ s' => drop_chars n' s'
  | _, _ => s
  end.

Fixpoint replace (pat rep s : string) : string :=
  if String.prefix pat s then rep +:+ drop_chars (String.length pat) s
  else match s with
       | "" => ""
       | String c s' => String c (replace pat rep s')
       end.

(** [Date.prototype.toISOString] of a time in milliseconds since the epoch
    (proleptic Gregorian calendar, UTC). *)
Definition pad (width : nat) (n : Z) : string :=
  let s := string_of_Z n in
  String.concat "" (replicate (width - String.length s) "0") +:+ s.

Definition civil_of_days (days : Z) : Z * Z * Z :=
  let z := days + 719468 in
  let era := z / 146097 in
  let doe := z mod 146097 in
  let yoe := (doe - doe / 1460 + doe / 36524 - doe / 146096) / 365 in
  let doy := doe - (365 * yoe + yoe / 4 - yoe / 100) in
  let mp := (5 * doy + 2) / 153 in
  let d := doy - (153 * mp + 2) / 5 + 1 in
  let m := if mp <? 10 then mp + 3 else mp - 9 in
  let y := yoe + era * 400 + (if m <=? 2 then 1 else 0) in
  (y, m, d).

Definition year_string (y : Z) : string :=
  if (0 <=? y) && (y <=? 9999) then pad 4 y
  else (if y <? 0 then "-" else "+") +:+ pad 6 (Z.abs y).

Definition toISOString (ms : Z) : string :=
  let secs := ms / 1000 in
  let '(y, m, d) := civil_of_days (secs / 86400) in
  year_string y +:+ "-" +:+ pad 2 m +:+ "-" +:+ pad 2 d +:+ "T" +:+
  pad 2 (secs / 3600 mod 24) +:+ ":" +:+ pad 2 (secs / 60 mod 60) +:+ ":" +:+
  pad 2 (secs mod 60) +:+ "." +:+ pad 3 (ms mod 1000) +:+ "Z".

End JS.
Export JS.

(** [JSON.stringify] and [JSON.parse]; [JSON_parse] is [None] where
    [JSON.parse] throws a [SyntaxError]. *)
Class JSON := {
  JSON_stringify : json -> string;
  JSON_parse : string -> option json
}.

(** What the layer relies on: a document survives serialisation, and the
    serialised text is never the empty string. *)
Class JSONLaws `{JSON} : Prop := {
  parse_stringify : forall v, JSON_parse (JSON_stringify v) = Some v;
  stringify_nonempty : forall v, JSON_stringify v <> ""
}.

(** ** The Redis server and the connection to it *)

Module Redis.

(** A key holds a string or a sorted set (member, score). *)
Inductive rval :=
  | RStr (s : string)
  | RZSet (members : list (string * Z)).

(** A stored value and, when the key is volatile, the time in milliseconds
    at which it expires. *)
Record entry := Entry { e_val : rval; e_deadline : option Z }.

Inductive command :=
  | SET (key value : string)
  | SETEX (key : string) (seconds : Z) (value : string)
  | GET (key : string)
  | DEL (key : string)
  | EXISTS (key : string)
  | EXPIRE (key : string) (seconds : Z)
  | TTL (key : string)
  | KEYS (pattern : string)
  | INCR (key : string)
  | ZADD (key : string) (score : Z) (member : string)
  | ZPOPMAX (key : string)
  | ZCARD (key : string).

(** A command that was issued, and whether the client got a reply that is
    not an error. *)
Record event := Ev { ev_cmd : command; ev_ok : bool }.

(** The world outside the process: the clock (milliseconds since the epoch),
    the keyspace, the faults of the connection still to come (one flag per
    command issued from now on, [true] for a command that is lost; none once
    the list is used up) and the commands issued so far, latest first. *)
Record world := World {
  now : Z;
  db : gmap string entry;
  faults : list bool;
  oplog : list event
}.

Inductive error :=
  | StoreUnavailable
  | ReplyError (msg : string)
  | SyntaxError.

Inductive result (A : Type) :=
  | Ok (a : A)
  | Throw (e : error).
Arguments Ok {A} a.
Arguments Throw {A} e.

Definition is_ok {A} (r : result A) : bool :=
  match r with Ok _ => true | Throw _ => false end.

(** An [async] computation. *)
Definition M (A : Type) : Type := world -> result A * world.

Definition ret {A} (a : A) : M A := fun w => (Ok a, w).

Definition throw {A} (e : error) : M A := fun w => (Throw e, w).

Definition bind {A B} (m : M A) (k : A -> M B) : M B :=
  fun w =>
    match m w with
    | (Ok a, w') => k a w'
    | (Throw e, w') => (Throw e, w')
    end.

(** [try { m } catch (error) { h error }] *)
Definition try_catch {A} (m : M A) (h : error -> M A) : M A :=
  fun w =>
    match m w with
    | (Ok a, w') => (Ok a, w')
    | (Throw e, w') => h e w'
    end.

(** [Date.now()] *)
Definition Date_now : M Z := fun w => (Ok (now w), w).

(** Time passing between two calls. *)
Definition tick (d : Z) (w : world) : world :=
  {| now := now w + d; db := db w; faults := faults w; oplog := oplog w |}.

(** *** Semantics of the commands on the keyspace at time [t] *)

Definition is_dead (t : Z) (e : entry) : bool :=
  match e_deadline e with
  | Some d => d <? t
  | None => false
  end.

(** Expired keys are invisible to every command. *)
Definition live (t : Z) (d : gmap string entry) (key : string) : option entry :=
  match d !! key with
  | Some e => if is_dead t e then None else Some e
  | None => None
  end.

Definition wrongtype : error :=
  ReplyError "WRONGTYPE Operation against a key holding the wrong kind of value".

Definition exec_set (key value : string) (t : Z) (d : gmap string entry)
  : result string * gmap string entry :=
  (Ok "OK", <[key := Entry (RStr value) None]> d).

Definition exec_setex (key : string) (seconds : Z) (value : string) (t : Z)
    (d : gmap string entry) : result string * gmap string entry :=
  if seconds <=? 0 then
    (Throw (ReplyError "ERR invalid expire time in 'setex' command"), d)
  else (Ok "OK", <[key := Entry (RStr value) (Some (t + 1000 * seconds))]> d).

(** The reply is [None] ([null]) for a key that does not exist. *)
Definition exec_get (key : string) (t : Z) (d : gmap string entry)
  : result (option string) * gmap string entry :=
  match live t d key with
  | None => (Ok None, d)
  | Some (Entry (RStr s) _) => (Ok (Some s), d)
  | Some (Entry (RZSet _) _) => (Throw wrongtype, d)
  end.

Definition exec_del (key : string) (t : Z) (d : gmap string entry)
  : result Z * gmap string entry :=
  match live t d key with
  | None => (Ok 0, delete key d)
  | Some _ => (Ok 1, delete key d)
  end.

Definition exec_exists (key : string) (t : Z) (d : gmap string entry)
  : result Z * gmap string entry :=
  match live t d key with
  | None => (Ok 0, d)
  | Some _ => (Ok 1, d)
  end.

(** A timeout that is not positive deletes the key. *)
Definition exec_expire (key : string) (seconds : Z) (t : Z)
    (d : gmap string entry) : result Z * gmap string entry :=
  match live t d key with
  | None => (Ok 0, d)
  | Some e =>
      if seconds <=? 0 then (Ok 1, delete key d)
      else (Ok 1, <[key := Entry (e_val e) (Some (t + 1000 * seconds))]> d)
  end.

(** Remaining time to live in seconds, rounded to the nearest second; [-2]
    for a key that does not exist, [-1] for a key that is not volatile. *)
Definition ttl_of (t : Z) (d : gmap string entry) (key : string) : Z :=
  match live t d key with
  | None => -2
  | Some e =>
      match e_deadline e with
      | None => -1
      | Some dl => (dl - t + 500) / 1000
      end
  end.

Definition exec_ttl (key : string) (t : Z) (d : gmap string entry)
  : result Z * gmap string entry :=
  (Ok (ttl_of t d key), d).

(** Glob patterns made of literal characters, [?] and [*]. *)
Fixpoint glob_match (p : string) : string -> bool :=
  match p with
  | "" => fun s => String.eqb s ""
  | String c p' =>
      if Ascii.eqb c "*" then
        fix star (s : string) : bool :=
          glob_match p' s
          || match s with
             | "" => false
             | String _ s' => star s'
             end
      else fun s =>
        match s with
        | "" => false
        | String c' s' =>
            (Ascii.eqb c "?" || Ascii.eqb c c') && glob_match p' s'
        end
  end.

Definition exec_keys (pattern : string) (t : Z) (d : gmap string entry)
  : result (list string) * gmap string entry :=
  (Ok (filter (fun key => glob_match pattern key = true /\ is_Some (live t d key))
         (map_to_list d).*1), d).

Definition int64 (n : Z) : bool := (- 2 ^ 63 <=? n) && (n <? 2 ^ 63).

(** The counter of a key that does not exist starts from 0; the time to live
    of an existing key is kept. *)
Definition exec_incr (key : string) (t : Z) (d : gmap string entry)
  : result Z * gmap string entry :=
  match live t d key with
  | None => (Ok 1, <[key := Entry (RStr (string_of_Z 1)) None]> d)
  | Some (Entry (RStr s) dl) =>
      match Z_of_string s with
      | Some n =>
          if int64 n then
            if int64 (n + 1) then
              (Ok (n + 1), <[key := Entry (RStr (string_of_Z (n + 1))) dl]> d)
            else (Throw (ReplyError "ERR increment or decrement would overflow"), d)
          else (Throw (ReplyError "ERR value is not an integer or out of range"), d)
      | None =>
          (Throw (ReplyError "ERR value is not an integer or out of range"), d)
      end
  | Some (Entry (RZSet _) _) => (Throw wrongtype, d)
  end.

(** Members of a sorted set are ordered by score, then bytewise. *)
Definition zless (a b : string * Z) : bool :=
  (a.2 <? b.2) || ((a.2 =? b.2) && String.ltb a.1 b.1).

Fixpoint zmax (z : list (string * Z)) : option (string * Z) :=
  match z with
  | [] => None
  | x :: z' =>
      match zmax z' with
      | None => Some x
      | Some y => if zless x y then Some y else Some x
      end
  end.

Definition zremove (member : string) (z : list (string * Z)) : list (string * Z) :=
  filter (fun x => x.1 <> member) z.

Definition zmember (member : string) (z : list (string * Z)) : bool :=
  bool_decide (member ∈ z.*1).

(** The reply counts the members that were added, not those re-scored. *)
Definition exec_zadd (key : string) (score : Z) (member : string) (t : Z)
    (d : gmap string entry) : result Z * gmap string entry :=
  match live t d key with
  | None => (Ok 1, <[key := Entry (RZSet [(member, score)]) None]> d)
  | Some (Entry (RZSet z) dl) =>
      (Ok (if zmember member z then 0 else 1),
       <[key := Entry (RZSet ((member, score) :: zremove member z)) dl]> d)
  | Some (Entry (RStr _) _) => (Throw wrongtype, d)
  end.

(** The reply is the flat array [member, score], or the empty array; a
    sorted set left without members is removed. *)
Definition exec_zpopmax (key : string) (t : Z) (d : gmap string entry)
  : result (list string) * gmap string entry :=
  match live t d key with
  | None => (Ok [], d)
  | Some (Entry (RZSet z) dl) =>
      match zmax z with
      | None => (Ok [], delete key d)
      | Some (member, score) =>
          (Ok [member; string_of_Z score],
           match zremove member z with
           | [] => delete key d
           | z' => <[key := Entry (RZSet z') dl]> d
           end)
      end
  | Some (Entry (RStr _) _) => (Throw wrongtype, d)
  end.

Definition exec_zcard (key : string) (t : Z) (d : gmap string entry)
  : result Z * gmap string entry :=
  match live t d key with
  | None => (Ok 0, d)
  | Some (Entry (RZSet z) _) => (Ok (Z.of_nat (length z)), d)
  | Some (Entry (RStr _) _) => (Throw wrongtype, d)
  end.

(** *** Issuing a command over the connection

    A command scheduled to be lost leaves the keyspace alone and rejects
    with [StoreUnavailable]; otherwise the server executes it. Either way
    the command is logged with its outcome.

    A lost command is one that never reaches the server. A rejection that
    arrives after the server has run the command (a reply that misses the
    client's [commandTimeout]) is not part of this model: a property that
    says what a failed command leaves behind says so for a command that is
    lost or that the server refuses. *)
Definition issue {A} (c : command)
    (exec : Z -> gmap string entry -> result A * gmap string entry) : M A :=
  fun w =>
    match faults w with
    | true :: fs =>
        (Throw StoreUnavailable,
         {| now := now w; db := db w; faults := fs;
            oplog := Ev c false :: oplog w |})
    | fs =>
        let '(r, d') := exec (now w) (db w) in
        (r, {| now := now w; db := d'; faults := tail fs;
               oplog := Ev c (is_ok r) :: oplog w |})
    end.

Definition redis_set (key value : string) : M string :=
  issue (SET key value) (exec_set key value).
Definition redis_setex (key : string) (seconds : Z) (value : string) : M string :=
  issue (SETEX key seconds value) (exec_setex key seconds value).
Definition redis_get (key : string) : M (option string) :=
  issue (GET key) (exec_get key).
Definition redis_del (key : string) : M Z :=
  issue (DEL key) (exec_del key).
Definition redis_exists (key : string) : M Z :=
  issue (EXISTS key) (exec_exists key).
Definition redis_expire (key : string) (seconds : Z) : M Z :=
  issue (EXPIRE key seconds) (exec_expire key seconds).
Definition redis_ttl (key : string) : M Z :=
  issue (TTL key) (exec_ttl key).
Definition redis_keys (pattern : string) : M (list string) :=
  issue (KEYS pattern) (exec_keys pattern).
Definition redis_incr (key : string) : M Z :=
  issue (INCR key) (exec_incr key).
Definition redis_zadd (key : string) (score : Z) (member : string) : M Z :=
  issue (ZADD key score member) (exec_zadd key score member).
Definition redis_zpopmax (key : string) : M (list string) :=
  issue (ZPOPMAX key) (exec_zpopmax key).
Definition redis_zcard (key : string) : M Z :=
  issue (ZCARD key) (exec_zcard key).

End Redis.
Export Redis.

Notation "'let*' x ':=' m 'in' k" := (bind m (fun x => k))
  (at level 10, x name, m at level 100, k at level 200, only parsing).

(** ** The utilities of [redis-config-template.js] *)

Section Layer.
Context `{JSON}.

(** [JSON.parse(text)] inside a [try] block. *)
Definition JSON_parse_throw (text : string) : M json :=
  match JSON_parse text with
  | Some v => ret v
  | None => throw SyntaxError
  end.

(** *** [cache] *)

(** [cache.set(key, value, ttlSeconds = 3600)]; [None] is an omitted
    [ttlSeconds]. *)
Definition cache_set (key : string) (value : json) (ttlSeconds : option Z) : M bool :=
  let ttlSeconds := default 3600 ttlSeconds in
  try_catch
    (let serializedValue := JSON_stringify value in
     if negb (ttlSeconds =? 0) then
       let* _ := redis_setex key ttlSeconds serializedValue in ret true
     else
       let* _ := redis_set key serializedValue in ret true)
    (fun _ => ret false).

(** [cache.get(key)] *)
Definition cache_get (key : string) : M json :=
  try_catch
    (let* value := redis_get key in
     match value with
     | Some text =>
         if negb (String.eqb text "") then JSON_parse_throw text else ret JNull
     | None => ret JNull
     end)
    (fun _ => ret JNull).

(** [cache.del(key)] *)
Definition cache_del (key : string) : M bool :=
  try_catch
    (let* result := redis_del key in ret (0 <? result))
    (fun _ => ret false).

(** [cache.exists(key)] *)
Definition cache_exists (key : string) : M bool :=
  try_catch
    (let* result := redis_exists key in ret (result =? 1))
    (fun _ => ret false).

(** [cache.expire(key, ttlSeconds)] *)
Definition cache_expire (key : string) (ttlSeconds : Z) : M bool :=
  try_catch
    (let* result := redis_expire key ttlSeconds in ret (result =? 1))
    (fun _ => ret false).

(** [cache.ttl(key)] *)
Definition cache_ttl (key : string) : M Z :=
  try_catch (redis_ttl key) (fun _ => ret (-1)).

(** *** [sessionStore] *)

Definition setSession (sessionId : string) (sessionData : json)
    (ttlSeconds : option Z) : M bool :=
  let ttlSeconds := default 86400 ttlSeconds in
  let key := "session:" +:+ sessionId in
  cache_set key sessionData (Some ttlSeconds).

Definition getSession (sessionId : string) : M json :=
  let key := "session:" +:+ sessionId in
  cache_get key.

Definition deleteSession (sessionId : string) : M bool :=
  let key := "session:" +:+ sessionId in
  cache_del key.

Definition extendSession (sessionId : string) (ttlSeconds : option Z) : M bool :=
  let ttlSeconds := default 86400 ttlSeconds in
  let key := "session:" +:+ sessionId in
  cache_expire key ttlSeconds.

(** [sessionData.userId === userId] for a string [userId]. *)
Definition userId_is (sessionData : json) (userId : string) : bool :=
  match get_prop sessionData "userId" with
  | Some (JStr u) => String.eqb u userId
  | _ => false
  end.

(** [{ sessionId: key.replace('session:', ''), ...sessionData }] *)
Definition session_record (key : string) (sessionData : json) : json :=
  JObj (spread {[ "sessionId" := JStr (replace "session:" "" key) ]}
               (own_props (Some sessionData))).

(** The loop [for (const key of keys)] of [getUserSessions], pushing onto
    [sessions]. *)
Fixpoint scan_sessions (userId : string) (keys : list string)
    (sessions : list json) : M (list json) :=
  match keys with
  | [] => ret sessions
  | key :: keys' =>
      let* sessionData := cache_get key in
      scan_sessions userId keys'
        (if truthy sessionData && userId_is sessionData userId
         then sessions ++ [session_record key sessionData]
         else sessions)
  end.

(** [sessionStore.getUserSessions(userId)] *)
Definition getUserSessions (userId : string) : M (list json) :=
  try_catch
    (let pattern := "session:*" in
     let* keys := redis_keys pattern in
     scan_sessions userId keys [])
    (fun _ => ret []).

(** *** [rateLimiter] *)

Record limit := Limit {
  allowed : bool;
  count : Z;
  remaining : Z;
  resetTime : option Z
}.

(** [rateLimiter.checkLimit(identifier, maxRequests = 100, windowSeconds = 3600)] *)
Definition checkLimit (identifier : string) (maxRequests windowSeconds : option Z)
  : M limit :=
  let maxRequests := default 100 maxRequests in
  let windowSeconds := default 3600 windowSeconds in
  try_catch
    (let key := "ratelimit:" +:+ identifier in
     let* currentCount := redis_incr key in
     let* _ :=
       if currentCount =? 1 then redis_expire key windowSeconds else ret 0 in
     let remaining := Z.max 0 (maxRequests - currentCount) in
     let* ttl := redis_ttl key in
     let* t := Date_now in
     ret {| allowed := currentCount <=? maxRequests;
            count := currentCount;
            remaining := remaining;
            resetTime := if 0 <? ttl then Some (t + ttl * 1000) else None |})
    (fun _ =>
       ret {| allowed := true; count := 0; remaining := maxRequests;
              resetTime := None |}).

(** [rateLimiter.resetLimit(identifier)] *)
Definition resetLimit (identifier : string) : M bool :=
  let key := "ratelimit:" +:+ identifier in
  cache_del key.

(** *** [queue] *)

(** The job record serialised by [addJob]. *)
Definition job_record (jobId : string) (jobData : json) (priority : Z)
    (t : Z) : json :=
  JObj (<["id" := JStr jobId]>
       (<["data" := jobData]>
       (<["priority" := JNum priority]>
       (<["createdAt" := JStr (toISOString t)]>
       (<["status" := JStr "pending"]> ∅))))).

(** [queue.addJob(queueName, jobData, priority = 0)]. [suffix] is the value
    of [Math.random().toString(36).substring(7)] drawn by this call; the
    reply is the job id, or [None] for [null]. *)
Definition addJob (queueName : string) (jobData : json) (priority : option Z)
    (suffix : string) : M (option string) :=
  let priority := default 0 priority in
  try_catch
    (let* t := Date_now in
     let jobId := "job:" +:+ string_of_Z t +:+ ":" +:+ suffix in
     let job := job_record jobId jobData priority t in
     let* _ := redis_zadd ("queue:" +:+ queueName) priority (JSON_stringify job) in
     ret (Some jobId))
    (fun _ => ret None).

(** [queue.getNextJob(queueName)] *)
Definition getNextJob (queueName : string) : M json :=
  try_catch
    (let* result := redis_zpopmax ("queue:" +:+ queueName) in
     match result with
     | [] => ret JNull
     | member :: _ => JSON_parse_throw member
     end)
    (fun _ => ret JNull).

(** [queue.getQueueLength(queueName)] *)
Definition getQueueLength (queueName : string) : M Z :=
  try_catch (redis_zcard ("queue:" +:+ queueName)) (fun _ => ret 0).

(** *** [conversationCache] *)

Definition setState (contactId : string) (conversationData : json)
    (ttlSeconds : option Z) : M bool :=
  let ttlSeconds := default 7200 ttlSeconds in
  let key := "conversation:" +:+ contactId in
  cache_set key conversationData (Some ttlSeconds).

Definition getState (contactId : string) : M json :=
  let key := "conversation:" +:+ contactId in
  cache_get key.

(** The object literal built by [updateStep] from the current state. *)
Definition updatedState (currentState step contextData : json) (t : Z) : json :=
  JObj (<["updatedAt" := JStr (toISOString t)]>
       (<["contextData" :=
            JObj (spread (own_props (get_prop currentState "contextData"))
                         (own_props (Some contextData)))]>
       (<["step" := step]> (own_props (Some currentState))))).

(** [conversationCache.updateStep(contactId, step, contextData = {})] *)
Definition updateStep (contactId : string) (step : json)
    (contextData : option json) : M bool :=
  let contextData := default (JObj ∅) contextData in
  let key := "conversation:" +:+ contactId in
  let* got := cache_get key in
  let currentState := if truthy got then got else JObj ∅ in
  let* t := Date_now in
  cache_set key (updatedState currentState step contextData t) (Some 7200).

Definition clearState (contactId : string) : M bool :=
  let key := "conversation:" +:+ contactId in
  cache_del key.

End Layer.

(** ** A small executable JSON runtime

    A printer and a parser for documents in the compact form that
    [JSON.stringify] produces (no white space, integer numbers, the double
    quote and the backslash escaped in strings). It instantiates [JSON], so
    that the layer can be run, and it satisfies [JSONLaws]. *)

Module MiniJSON.

Local Open Scope char_scope.

Definition escape (c : ascii) : list ascii :=
  if Ascii.eqb c "034" || Ascii.eqb c "\" then ["\"; c] else [c].

Definition print_string (s : string) : list ascii :=
  "034" :: flat_map escape (list_ascii_of_string s) ++ ["034"].

Definition print_Z (n : Z) : list ascii := list_ascii_of_string (string_of_Z n).

(** Items separated by commas and followed by the closing bracket. *)
Fixpoint join_items (l : list (list ascii)) (close : ascii) : list ascii :=
  match l with
  | [] => [close]
  | [x] => x ++ [close]
  | x :: l' => x ++ "," :: join_items l' close
  end.

Definition print_member (kv : string * list ascii) : list ascii :=
  print_string kv.1 ++ ":" :: kv.2.

Fixpoint print (v : json) : list ascii :=
  match v with
  | JNull => list_ascii_of_string "null"
  | JBool true => list_ascii_of_string "true"
  | JBool false => list_ascii_of_string "false"
  | JNum n => print_Z n
  | JStr s => print_string s
  | JArr items => "[" :: join_items (print <$> items) "]"
  | JObj props =>
      "{" :: join_items (print_member <$> map_to_list (print <$> props)) "}"
  end.

Definition stringify (v : json) : string := string_of_list_ascii (print v).

(** The characters of a string up to its closing quote. *)
Fixpoint parse_string (s : list ascii) : option (list ascii * list ascii) :=
  match s with
  | [] => None
  | c :: r =>
      if Ascii.eqb c "034" then Some ([], r)
      else if Ascii.eqb c "\" then
        match r with
        | c' :: r' =>
            match parse_string r' with
            | Some (x, rest) => Some (c' :: x, rest)
            | None => None
            end
        | [] => None
        end
      else
        match parse_string r with
        | Some (x, rest) => Some (c :: x, rest)
        | None => None
        end
  end.

Definition is_digit (c : ascii) : bool :=
  (48 <=? nat_of_ascii c)%nat && (nat_of_ascii c <=? 57)%nat.

Fixpoint span_digits (s : list ascii) : list ascii * list ascii :=
  match s with
  | c :: r =>
      if is_digit c then let '(ds, rest) := span_digits r in (c :: ds, rest)
      else ([], s)
  | [] => ([], [])
  end.

Definition parse_Z (s : list ascii) : option (Z * list ascii) :=
  let '(sign, r) :=
    match s with
    | c :: r => if Ascii.eqb c "-" then ([c], r) else ([], s)
    | [] => ([], s)
    end in
  let '(ds, rest) := span_digits r in
  match Z_of_string (string_of_list_ascii (sign ++ ds)) with
  | Some n => Some (n, rest)
  | None => None
  end.

Definition expect {A} (word : string) (a : A) (s : list ascii)
  : option (A * list ascii) :=
  let w := list_ascii_of_string word in
  if bool_decide (take (length w) s = w) then Some (a, drop (length w) s)
  else None.

(** At most [n] items, each followed by a comma or by the closing bracket. *)
Fixpoint parse_items {A} (item : list ascii -> option (A * list ascii))
    (close : ascii) (n : nat) (s : list ascii) : option (list A * list ascii) :=
  match n with
  | O => None
  | S n' =>
      match item s with
      | Some (x, c :: r) =>
          if Ascii.eqb c "," then
            match parse_items item close n' r with
            | Some (l, rest) => Some (x :: l, rest)
            | None => None
            end
          else if Ascii.eqb c close then Some ([x], r)
          else None
      | _ => None
      end
  end.

Definition parse_member (value : list ascii -> option (json * list ascii))
    (s : list ascii) : option ((string * json) * list ascii) :=
  match s with
  | c :: r =>
      if Ascii.eqb c "034" then
        match parse_string r with
        | Some (k, c' :: r') =>
            if Ascii.eqb c' ":" then
              match value r' with
              | Some (v, rest) => Some ((string_of_list_ascii k, v), rest)
              | None => None
              end
            else None
        | _ => None
        end
      else None
  | [] => None
  end.

(** A document at the head of [s], with nesting depth at most [n]. *)
Fixpoint parse_value (n : nat) (s : list ascii) : option (json * list ascii) :=
  match n with
  | O => None
  | S n' =>
      match s with
      | [] => None
      | c :: r =>
          if Ascii.eqb c "n" then expect "ull" JNull r
          else if Ascii.eqb c "t" then expect "rue" (JBool true) r
          else if Ascii.eqb c "f" then expect "alse" (JBool false) r
          else if Ascii.eqb c "034" then
            match parse_string r with
            | Some (x, rest) => Some (JStr (string_of_list_ascii x), rest)
            | None => None
            end
          else if Ascii.eqb c "[" then
            match r with
            | c' :: r' =>
                if Ascii.eqb c' "]" then Some (JArr [], r')
                else
                  match parse_items (parse_value n') "]" n' r with
                  | Some (l, rest) => Some (JArr l, rest)
                  | None => None
                  end
            | [] => None
            end
          else if Ascii.eqb c "{" then
            match r with
            | c' :: r' =>
                if Ascii.eqb c' "}" then Some (JObj ∅, r')
                else
                  match parse_items (parse_member (parse_value n')) "}" n' r with
                  | Some (l, rest) => Some (JObj (list_to_map l), rest)
                  | None => None
                  end
            | [] => None
            end
          else
            match parse_Z s with
            | Some (z, rest) => Some (JNum z, rest)
            | None => None
            end
      end
  end.

(** What may follow a number: anything but a digit. *)
Definition ok_rest (rest : list ascii) : Prop :=
  match rest with
  | [] => True
  | c :: _ => is_digit c = false
  end.

Definition parse (text : string) : option json :=
  let s := list_ascii_of_string text in
  match parse_value (length s) s with
  | Some (v, []) => Some v
  | _ => None
  end.

End MiniJSON.

#[export] Instance mini_json : JSON :=
  {| JSON_stringify := MiniJSON.stringify; JSON_parse := MiniJSON.parse |}.

(** ** Vocabulary of the properties *)

(** No fault of the connection is scheduled. *)
Definition healthy (w : world) : Prop := faults w = [].

(** [evs] are the commands issued between [w] and [w'], latest first. *)
Definition issued (w w' : world) (evs : list event) : Prop :=
  oplog w' = evs ++ oplog w.

Definition failed (e : event) : Prop := ev_ok e = false.

(** The key holds no value at the current time. *)
Definition absent (w : world) (key : string) : Prop :=
  live (now w) (db w) key = None.

(** The record [checkLimit] returns from its [catch] block. *)
Definition fail_open (maxRequests : Z) : limit :=
  {| allowed := true; count := 0; remaining := maxRequests; resetTime := None |}.

(** A key written with [ttlSeconds] is still there [d] milliseconds later. *)
Definition unexpired (ttlSeconds d : Z) : Prop :=
  0 <= d /\ 0 <= ttlSeconds /\ (ttlSeconds = 0 \/ d <= 1000 * ttlSeconds).

(** The document [cache.get] reads at [key] when the connection works. *)
Definition stored_doc `{JSON} (t : Z) (d : gmap string entry) (key : string) : json :=
  match live t d key with
  | Some (Entry (RStr text) _) =>
      if String.eqb text "" then JNull else default JNull (JSON_parse text)
  | _ => JNull
  end.

(** Successive calls of [checkLimit], the i-th made [delays !! i]
    milliseconds after the one before; each call is listed with the time to
    live of the counter once it has returned. *)
Fixpoint calls (identifier : string) (maxRequests windowSeconds : option Z)
    (delays : list Z) (w : world) : list (limit * Z) :=
  match delays with
  | [] => []
  | d :: delays' =>
      match checkLimit identifier maxRequests windowSeconds (tick d w) with
      | (Ok r, w') =>
          (r, ttl_of (now w') (db w') ("ratelimit:" +:+ identifier))
          :: calls identifier maxRequests windowSeconds delays' w'
      | (Throw _, _) => []
      end
  end.

Fixpoint non_increasing (l : list Z) : Prop :=
  match l with
  | a :: l' =>
      match l' with
      | b :: _ => b <= a /\ non_increasing l'
      | [] => True
      end
  | [] => True
  end.

(** What the loop of [getUserSessions] pushes for [key], if anything, when
    the connection works. *)
Definition visit `{JSON} (userId : string) (t : Z) (d : gmap string entry)
    (key : string) : option json :=
  let sessionData := stored_doc t d key in
  if truthy sessionData && userId_is sessionData userId
  then Some (session_record key sessionData)
  else None.

(** The entry [cache.set] writes at time [t] for a non-negative TTL. *)
Definition written (t : Z) (text : string) (secs : Z) : entry :=
  Entry (RStr text) (if secs =? 0 then None else Some (t + 1000 * secs)).

(** ** Sample worlds *)

(** An empty store with a working connection, on 14 November 2023. *)
Definition empty_store : world := World 1700000000000 ∅ [] [].

(** The same store behind a connection that loses the next command. *)
Definition unreachable_store : world := World 1700000000000 ∅ [true] [].

(** A counter that already stands at its limit of 3, behind a connection
    that serves the next command and loses the one after. *)
Definition flaky_store : world :=
  World 1700000000000
    {[ "ratelimit:alice" := Entry (RStr "3") (Some 1700000030000) ]}
    [false; true] [].

(** The state of a conversation at step 1 with the context [{a: 1}]. *)
Definition step_one : gmap string json :=
  <["step" := JNum 1]> {[ "contextData" := JObj {[ "a" := JNum 1 ]} ]}.

(** The data of a session of [userId], as the login handler stores it. *)
Definition session_of (userId agent : string) : json :=
  JObj (<["userId" := JStr userId]>
       {[ "deviceInfo" := JObj {[ "userAgent" := JStr agent ]} ]}).


(** ** Vocabulary of the further properties *)

(** The connection loses the next command. *)
Definition lost (w : world) : bool :=
  match faults w with
  | true :: _ => true
  | _ => false
  end.

(** Time spent over a list of delays. *)
Definition total (delays : list Z) : Z := foldr Z.add 0 delays.

(** The key holds the sorted set [z], or nothing when [z] is empty; as in
    every sorted set, no member occurs twice. *)
Definition holds_queue (w : world) (key : string) (z : list (string * Z)) : Prop :=
  NoDup z.*1 /\
  match live (now w) (db w) key with
  | Some (Entry (RZSet z') _) => z' = z
  | Some (Entry (RStr _) _) => False
  | None => z = []
  end.

(** [n] successive calls of [getNextJob], with the jobs they return. *)
Fixpoint drain `{JSON} (queueName : string) (n : nat) : M (list json) :=
  match n with
  | O => ret []
  | S n' =>
      let* job := getNextJob queueName in
      let* jobs := drain queueName n' in
      ret (job :: jobs)
  end.

(** A queue of two members, the second of which is no JSON text. *)
Definition mail_queue : world :=
  World 1700000000000
    {[ "queue:mail" := Entry (RZSet [("[]", 1); ("oops", 3)]) None ]} [] [].

(** A store that holds one key without a time to live. *)
Definition cached_store : world :=
  World 1700000000000 {[ "greeting" := Entry (RStr "1") None ]} [] [].

(** A counter whose window closed ten seconds ago. *)
Definition stale_counter : world :=
  World 1700000000000
    {[ "ratelimit:alice" := Entry (RStr "7") (Some 1699999990000) ]} [] [].

(** A counter at 3 with thirty seconds to go, over a working connection. *)
Definition counting_store : world :=
  World 1700000000000
    {[ "ratelimit:alice" := Entry (RStr "3") (Some 1700000030000) ]} [] [].

(** An empty store behind a connection that serves the next command and
    loses the one after. *)
Definition lossy_store : world := World 1700000000000 ∅ [false; true] [].

(** A store that holds one session of the user [u1]. *)
Definition one_session : world :=
  World 1700000000000
    {[ "session:s1" :=
         Entry (RStr (JSON_stringify (session_of "u1" "firefox"))) None ]} [] [].

(** A conversation at step 1, behind a connection that loses the next
    command. *)
Definition fading_talk : world :=
  World 1700000000000
    {[ "conversation:bob" :=
         Entry (RStr (JSON_stringify (JObj step_one))) (Some 1700003600000) ]}
    [true] [].

(** * Properties *)

(** ** JavaScript values *)

Lemma Z_of_string_of_Z (n : Z) : Z_of_string (string_of_Z n) = Some n.
Proof.
  unfold Z_of_string, string_of_Z.
  rewrite NilZero.isi.
  - rewrite DecimalZ.of_to, String.eqb_refl. reflexivity.
  - destruct n; simpl; try discriminate.
    intros [= E]. exact (DecimalPos.Unsigned.to_uint_nonnil _ E).
  - destruct n; simpl; try discriminate.
    intros [= E]. exact (DecimalPos.Unsigned.to_uint_nonnil _ E).
Qed.

(** The key of a session gives its id back. *)
Lemma replace_unfold (pat rep s : string) :
  replace pat rep s =
  if String.prefix pat s then rep +:+ drop_chars (String.length pat) s
  else match s with
       | "" => ""
       | String c s' => String c (replace pat rep s')
       end.
Proof. destruct s; reflexivity. Qed.

Lemma prefix_append (pat s : string) : String.prefix pat (pat +:+ s) = true.
Proof.
  induction pat as [|c pat IH]; [destruct s; reflexivity|].
  change (String c pat +:+ s) with (String c (pat +:+ s)).
  cbn [String.prefix]. destruct (ascii_dec c c); [exact IH|congruence].
Qed.

Lemma drop_chars_append (pat s : string) :
  drop_chars (String.length pat) (pat +:+ s) = s.
Proof. induction pat as [|c pat IH]; [destruct s; reflexivity|exact IH]. Qed.

(** Replacing a prefix by the empty string removes it. *)
Lemma replace_prefix (pat s : string) : replace pat "" (pat +:+ s) = s.
Proof.
  rewrite replace_unfold, prefix_append, drop_chars_append. reflexivity.
Qed.

Lemma jsize_item (x : json) (items : list json) :
  x ∈ items -> (jsize x < jsize (JArr items))%nat.
Proof.
  intros Hx. change (jsize x < S (foldr (fun y acc => jsize y + acc) 0 items))%nat.
  induction Hx as [x l|x y l _ IH]; cbn [foldr]; lia.
Qed.

Lemma jsize_prop (k : string) (x : json) (props : gmap string json) :
  props !! k = Some x -> (jsize x < jsize (JObj props))%nat.
Proof.
  intros Hk.
  change (jsize x < S (map_fold (fun _ y acc => jsize y + acc) 0 props))%nat.
  rewrite map_fold_foldr. apply elem_of_map_to_list in Hk.
  induction (map_to_list props) as [|[k' y] l IH]; [inversion Hk|].
  apply elem_of_cons in Hk as [[= <- <-]|Hk]; simpl; [lia|].
  specialize (IH Hk). lia.
Qed.

(** Structural induction on documents. *)
Lemma json_ind (P : json -> Prop) :
  P JNull ->
  (forall b, P (JBool b)) ->
  (forall n, P (JNum n)) ->
  (forall s, P (JStr s)) ->
  (forall items, Forall P items -> P (JArr items)) ->
  (forall props, map_Forall (fun _ => P) props -> P (JObj props)) ->
  forall v, P v.
Proof.
  intros Hnull Hbool Hnum Hstr Harr Hobj v.
  remember (jsize v) as n eqn:Hn. revert v Hn.
  induction n as [n IH] using lt_wf_ind. intros v ->.
  destruct v as [| | | |items|props]; auto.
  - apply Harr, Forall_forall. intros x Hx.
    eapply IH; [apply (jsize_item _ _ Hx)|reflexivity].
  - apply Hobj. intros k x Hk.
    eapply IH; [apply (jsize_prop _ _ _ Hk)|reflexivity].
Qed.

(** ** The small JSON runtime satisfies the laws *)

Module MiniJSONFacts.
Import MiniJSON.

Local Open Scope char_scope.
Local Open Scope list_scope.

Lemma parse_string_print (l rest : list ascii) :
  parse_string (flat_map escape l ++ "034" :: rest) = Some (l, rest).
Proof.
  induction l as [|c l IH]; [reflexivity|].
  cbn [flat_map]. unfold escape at 1.
  destruct (Ascii.eqb c "034") eqn:Eq; cbn [orb].
  - cbn [app parse_string]. apply Ascii.eqb_eq in Eq as ->.
    cbn [Ascii.eqb Bool.eqb]. rewrite IH. reflexivity.
  - destruct (Ascii.eqb c "\") eqn:Eb.
    + cbn [app parse_string]. apply Ascii.eqb_eq in Eb as ->.
      cbn [Ascii.eqb Bool.eqb]. rewrite IH. reflexivity.
    + cbn [app parse_string]. rewrite Eq, Eb, IH. reflexivity.
Qed.

Lemma digits_of_uint (d : Decimal.uint) :
  Forall (fun c => is_digit c = true)
    (list_ascii_of_string (NilEmpty.string_of_uint d)).
Proof. induction d; simpl; constructor; auto. Qed.

Lemma span_digits_app (ds rest : list ascii) :
  Forall (fun c => is_digit c = true) ds -> ok_rest rest ->
  span_digits (ds ++ rest) = (ds, rest).
Proof.
  intros Hds Hrest. induction Hds as [|c ds Hc _ IH]; simpl.
  - destruct rest as [|c rest]; [reflexivity|]. simpl in *. rewrite Hrest. reflexivity.
  - rewrite Hc, IH. reflexivity.
Qed.

(** The digits of a number, after its sign. *)
Lemma print_Z_shape (n : Z) :
  exists sign c ds,
    print_Z n = (sign ++ c :: ds)%list /\ (sign = [] \/ sign = ["-"]) /\
    Forall (fun c => is_digit c = true) (c :: ds).
Proof.
  unfold print_Z, string_of_Z.
  assert (Hu : forall p, exists c ds,
    list_ascii_of_string (NilZero.string_of_uint (Pos.to_uint p)) = c :: ds
    /\ Forall (fun c => is_digit c = true) (c :: ds)).
  { intros p. pose proof (DecimalPos.Unsigned.to_uint_nonnil p) as Hnn.
    pose proof (digits_of_uint (Pos.to_uint p)) as Hd.
    destruct (Pos.to_uint p) eqn:E; try congruence; simpl in *; eauto. }
  destruct n as [|p|p]; simpl.
  - exists [], "0", []. repeat split; auto.
  - destruct (Hu p) as (c & ds & -> & Hd). exists [], c, ds. auto.
  - destruct (Hu p) as (c & ds & -> & Hd). exists ["-"], c, ds. auto.
Qed.

Lemma parse_Z_print (n : Z) (rest : list ascii) :
  ok_rest rest -> parse_Z (print_Z n ++ rest) = Some (n, rest).
Proof.
  intros Hrest. destruct (print_Z_shape n) as (sign & c & ds & E & Hsign & Hd).
  assert (Hz : Z_of_string (string_of_list_ascii (sign ++ c :: ds)%list) = Some n).
  { rewrite <- E. unfold print_Z.
    rewrite string_of_list_ascii_of_string. apply Z_of_string_of_Z. }
  unfold parse_Z. rewrite E.
  destruct Hsign as [-> | ->]; simpl app in *.
  - assert (Ascii.eqb c "-" = false) as Hc.
    { inversion Hd as [|? ? Hc _]; subst. apply Ascii.eqb_neq. intros ->. discriminate. }
    cbn beta iota. rewrite Hc.
    change (c :: ds ++ rest)%list with ((c :: ds) ++ rest)%list.
    rewrite span_digits_app by assumption. cbn [app]. rewrite Hz. reflexivity.
  - cbn beta iota. cbn [Ascii.eqb Bool.eqb].
    change (c :: ds ++ rest)%list with ((c :: ds) ++ rest)%list.
    rewrite span_digits_app by assumption. cbn [app]. rewrite Hz. reflexivity.
Qed.

Lemma join_items_length (l : list (list ascii)) (close : ascii) :
  (length l <= length (join_items l close))%nat /\
  (forall x, x ∈ l -> length x < length (join_items l close))%nat.
Proof.
  induction l as [|x l [IH1 IH2]]; simpl.
  - split; [lia|]. intros x Hx. inversion Hx.
  - destruct l as [|y l].
    + rewrite length_app. simpl. split; [lia|].
      intros z Hz. apply list_elem_of_singleton in Hz as ->. lia.
    + rewrite length_app. cbn [length] in *. split; [lia|].
      intros z Hz. apply elem_of_cons in Hz as [->|Hz]; [lia|].
      specialize (IH2 z Hz). lia.
Qed.

Lemma parse_items_print {A} (item : list ascii -> option (A * list ascii))
    (pr : A -> list ascii) (close : ascii) (n : nat) (l : list A)
    (rest : list ascii) :
  l <> [] -> (length l <= n)%nat -> close <> "," ->
  is_digit close = false ->
  (forall x r, x ∈ l -> ok_rest r -> item (pr x ++ r) = Some (x, r)) ->
  parse_items item close n (join_items (pr <$> l) close ++ rest) = Some (l, rest).
Proof.
  intros Hne Hn Hclose Hdig Hitem. revert n Hn.
  induction l as [|x l IH]; [congruence|]. intros n Hn.
  destruct n as [|n]; [simpl in Hn; lia|]. simpl in Hn.
  destruct l as [|y l].
  - cbn [fmap list_fmap join_items parse_items].
    rewrite <- app_assoc. cbn [app].
    rewrite Hitem; [|left|exact Hdig].
    apply Ascii.eqb_neq in Hclose. rewrite Hclose, Ascii.eqb_refl. reflexivity.
  - change (join_items (pr <$> x :: y :: l) close)
      with (pr x ++ "," :: join_items (pr <$> y :: l) close).
    cbn [parse_items]. rewrite <- app_assoc. cbn [app].
    rewrite Hitem; [|left|reflexivity].
    cbn [Ascii.eqb Bool.eqb]. rewrite IH; [reflexivity|congruence| |lia].
    intros z r Hz. apply Hitem. right. exact Hz.
Qed.

(** A printed document starts with a character that closes nothing. *)
Lemma print_head (v : json) :
  exists c r, print v = c :: r /\ c <> "]" /\ c <> "}".
Proof.
  destruct v as [|[|]|n|s|items|props]; simpl;
    try (eexists _, _; split; [reflexivity|split; discriminate]).
  destruct (print_Z_shape n) as (sign & c & ds & -> & [-> | ->] & Hd).
  - exists c, ds. split; [reflexivity|].
    inversion Hd as [|? ? Hc _]; subst. split; intros ->; discriminate.
  - eexists _, _. split; [reflexivity|split; discriminate].
Qed.

Lemma print_length_pos (v : json) : (0 < length (print v))%nat.
Proof. destruct (print_head v) as (c & r & -> & _). simpl. lia. Qed.

Lemma expect_word {A} (word : string) (a : A) (rest : list ascii) :
  expect word a (list_ascii_of_string word ++ rest) = Some (a, rest).
Proof.
  unfold expect. rewrite take_app_length, drop_app_length.
  rewrite bool_decide_true; reflexivity.
Qed.

Lemma parse_member_print (value : list ascii -> option (json * list ascii))
    (k : string) (v : json) (r : list ascii) :
  value (print v ++ r) = Some (v, r) ->
  parse_member value (print_member (k, print v) ++ r) = Some ((k, v), r).
Proof.
  intros Hv. unfold print_member, print_string. cbn [fst snd].
  cbn [app parse_member Ascii.eqb Bool.eqb].
  rewrite <- !app_assoc. cbn [app].
  rewrite parse_string_print. cbn [Ascii.eqb Bool.eqb].
  rewrite Hv, string_of_list_ascii_of_string. reflexivity.
Qed.

Lemma parse_value_print (v : json) :
  forall n rest, (length (print v) <= n)%nat -> ok_rest rest ->
  parse_value n (print v ++ rest) = Some (v, rest).
Proof.
  induction v as [|b|z|s|items IH|props IH] using json_ind;
    intros n rest Hn Hrest;
    (destruct n as [|n];
     [match type of Hn with
      | (length (print ?v) <= _)%nat => pose proof (print_length_pos v); lia
      end|]).
  - apply (expect_word "ull").
  - destruct b; [apply (expect_word "rue")|apply (expect_word "alse")].
  - destruct (print_Z_shape z) as (sign & c & ds & E & Hsign & Hd).
    assert (Hc : exists c' r', print (JNum z) ++ rest = c' :: r' /\
              (c' = "-" \/ is_digit c' = true)).
    { simpl. rewrite E. inversion Hd; subst.
      destruct Hsign as [-> | ->]; simpl; eauto. }
    destruct Hc as (c' & r' & E' & Hc').
    cbn [parse_value]. rewrite E'.
    assert (Ascii.eqb c' "n" = false /\ Ascii.eqb c' "t" = false /\
            Ascii.eqb c' "f" = false /\ Ascii.eqb c' "034" = false /\
            Ascii.eqb c' "[" = false /\ Ascii.eqb c' "{" = false)
      as (-> & -> & -> & -> & -> & ->).
    { repeat split; apply Ascii.eqb_neq; intros ->;
        destruct Hc' as [?|?]; discriminate. }
    rewrite <- E'. cbn [print]. rewrite parse_Z_print by assumption. reflexivity.
  - cbn [print print_string app parse_value Ascii.eqb Bool.eqb].
    rewrite <- app_assoc. cbn [app].
    rewrite parse_string_print, string_of_list_ascii_of_string. reflexivity.
  - cbn [print app parse_value Ascii.eqb Bool.eqb].
    destruct items as [|x items]; [reflexivity|].
    cbn [print length] in Hn.
    destruct (join_items_length (print <$> x :: items) "]") as [Hlen Hin].
    rewrite length_fmap in Hlen.
    destruct (print_head x) as (c & r & E & Hc & _).
    assert (exists r', join_items (print <$> x :: items) "]" ++ rest = c :: r')
      as [r' E'].
    { cbn [fmap list_fmap]. destruct items; cbn [join_items list_fmap];
        rewrite E; simpl; eauto. }
    rewrite E'. apply Ascii.eqb_neq in Hc. rewrite Hc. rewrite <- E'.
    rewrite (parse_items_print (parse_value n) print); try done; [lia|].
    intros y r0 Hy Hr0. rewrite Forall_forall in IH. apply IH; [exact Hy| |exact Hr0].
    specialize (Hin (print y)). rewrite list_elem_of_fmap in Hin.
    assert (length (print y) < length (join_items (print <$> x :: items) "]"))%nat
      by (apply Hin; eauto).
    lia.
  - cbn [print app parse_value Ascii.eqb Bool.eqb].
    rewrite map_to_list_fmap, <- list_fmap_compose.
    destruct (map_to_list props) as [|kv l] eqn:El.
    { apply map_to_list_empty_iff in El as ->. reflexivity. }
    rewrite <- El.
    set (pr := print_member ∘ prod_map id print).
    cbn [print length] in Hn.
    rewrite map_to_list_fmap, <- list_fmap_compose in Hn. fold pr in Hn.
    destruct (join_items_length (pr <$> map_to_list props) "}") as [Hlen Hin].
    rewrite length_fmap in Hlen.
    assert (exists r', join_items (pr <$> map_to_list props) "}" ++ rest
                       = "034" :: r') as [r' E'].
    { rewrite El. cbn [fmap list_fmap]. destruct l; cbn [join_items list_fmap];
        unfold pr at 1, print_member, print_string; simpl; eauto. }
    rewrite E'. cbn [Ascii.eqb Bool.eqb]. rewrite <- E'.
    rewrite (parse_items_print (parse_member (parse_value n)) pr); try done.
    + rewrite list_to_map_to_list. reflexivity.
    + rewrite El. discriminate.
    + lia.
    + intros [k y] r0 Hy Hr0. unfold pr. cbn [compose prod_map fst snd id].
      apply parse_member_print.
      pose proof Hy as Hy'. apply elem_of_map_to_list in Hy'.
      apply (IH k y Hy'); [|exact Hr0].
      specialize (Hin (pr (k, y))). rewrite list_elem_of_fmap in Hin.
      assert (length (pr (k, y)) < length (join_items (pr <$> map_to_list props) "}"))%nat
        as Hlt by (apply Hin; eauto).
      assert (length (print y) <= length (pr (k, y)))%nat as Hle.
      { unfold pr, print_member. cbn [compose prod_map fst snd id].
        rewrite length_app. simpl. lia. }
      lia.
Qed.

Lemma parse_stringify_mini (v : json) : parse (stringify v) = Some v.
Proof.
  unfold parse, stringify. rewrite list_ascii_of_string_of_list_ascii.
  pose proof (parse_value_print v (length (print v)) []) as Hp.
  rewrite app_nil_r in Hp. rewrite Hp; [reflexivity|lia|exact I].
Qed.

Lemma stringify_nonempty_mini (v : json) : stringify v <> ""%string.
Proof.
  unfold stringify. destruct (print_head v) as (c & r & -> & _). discriminate.
Qed.

End MiniJSONFacts.

#[export] Instance mini_json_laws : @JSONLaws mini_json.
Proof.
  split.
  - exact MiniJSONFacts.parse_stringify_mini.
  - exact MiniJSONFacts.stringify_nonempty_mini.
Qed.

(** ** The connection *)

Lemma issue_healthy {A} (c : command)
    (exec : Z -> gmap string entry -> result A * gmap string entry)
    (t : Z) (d : gmap string entry) (lg : list event) :
  issue c exec (World t d [] lg) =
  (let '(r, d') := exec t d in (r, World t d' [] (Ev c (is_ok r) :: lg))).
Proof. reflexivity. Qed.

(** Whatever the connection does, a command is logged with its outcome, uses
    up one scheduled fault and leaves the clock alone. *)
Lemma issue_spec {A} (c : command)
    (exec : Z -> gmap string entry -> result A * gmap string entry) (w : world) :
  exists r d',
    issue c exec w
    = (r, World (now w) d' (tail (faults w)) (Ev c (is_ok r) :: oplog w)) /\
    ((r = Throw StoreUnavailable /\ d' = db w) \/ (r, d') = exec (now w) (db w)).
Proof.
  destruct w as [t d fs lg]. unfold issue. cbn [now db faults oplog].
  destruct fs as [|[|] fs].
  - destruct (exec t d) as [r d'] eqn:E. exists r, d'. split; [reflexivity|right; reflexivity].
  - exists (Throw StoreUnavailable), d. split; [reflexivity|left; split; reflexivity].
  - destruct (exec t d) as [r d'] eqn:E. exists r, d'. split; [reflexivity|right; reflexivity].
Qed.

Lemma live_insert_eq (t : Z) (d : gmap string entry) (key : string) (e : entry) :
  live t (<[key := e]> d) key = if is_dead t e then None else Some e.
Proof. unfold live. rewrite lookup_insert_eq. reflexivity. Qed.


Lemma live_delete_eq (t : Z) (d : gmap string entry) (key : string) :
  live t (delete key d) key = None.
Proof. unfold live. rewrite lookup_delete_eq. reflexivity. Qed.

Lemma live_lookup (t : Z) (d : gmap string entry) (key : string) (e : entry) :
  live t d key = Some e -> d !! key = Some e.
Proof. unfold live. destruct (d !! key) as [e'|]; [|discriminate]. destruct (is_dead t e'); congruence. Qed.

(** ** [rateLimiter.checkLimit] *)

Section RateLimiter.

(** The first hit of a window: the counter is created and armed. *)
Lemma checkLimit_first (identifier : string) (maxRequests windowSeconds : Z)
    (t : Z) (d : gmap string entry) (lg : list event) :
  let key := "ratelimit:" +:+ identifier in
  live t d key = None -> 0 < windowSeconds ->
  checkLimit identifier (Some maxRequests) (Some windowSeconds) (World t d [] lg) =
  (Ok {| allowed := 1 <=? maxRequests; count := 1;
         remaining := Z.max 0 (maxRequests - 1);
         resetTime := Some (t + windowSeconds * 1000) |},
   World t (<[key := Entry (RStr (string_of_Z 1)) (Some (t + 1000 * windowSeconds))]> d)
     [] (Ev (TTL key) true :: Ev (EXPIRE key windowSeconds) true
         :: Ev (INCR key) true :: lg)).
Proof.
  intros key Hlive Hwin.
  unfold checkLimit, try_catch, bind, redis_incr, redis_expire, redis_ttl,
    Date_now, ret. cbn [from_option]. unfold id. fold key.
  rewrite issue_healthy. unfold exec_incr. rewrite Hlive.
  cbv beta iota zeta. cbn [Z.eqb Pos.eqb]. rewrite issue_healthy. unfold exec_expire.
  rewrite live_insert_eq. cbn [is_dead e_deadline e_val].
  destruct (Z.leb_spec windowSeconds 0) as [?|_]; [lia|].
  cbv beta iota zeta.
  rewrite issue_healthy. unfold exec_ttl, ttl_of. rewrite live_insert_eq.
  cbn [is_dead e_deadline is_ok now].
  destruct (Z.ltb_spec (t + 1000 * windowSeconds) t) as [?|_]; [lia|].
  cbv beta iota zeta. cbn [e_deadline].
  replace ((t + 1000 * windowSeconds - t + 500) / 1000) with windowSeconds
    by (apply Z.div_unique with 500; lia).
  destruct (Z.ltb_spec 0 windowSeconds) as [_|?]; [|lia].
  rewrite insert_insert_eq. reflexivity.
Qed.

(** A later hit of the window: the counter moves, its deadline does not. *)
Lemma checkLimit_next (identifier : string) (maxRequests windowSeconds : Z)
    (t : Z) (d : gmap string entry) (lg : list event) (n : Z) (dl : option Z) :
  let key := "ratelimit:" +:+ identifier in
  live t d key = Some (Entry (RStr (string_of_Z n)) dl) ->
  1 <= n -> n + 1 < 2 ^ 63 ->
  checkLimit identifier (Some maxRequests) (Some windowSeconds) (World t d [] lg) =
  (Ok {| allowed := n + 1 <=? maxRequests; count := n + 1;
         remaining := Z.max 0 (maxRequests - (n + 1));
         resetTime :=
           let ttl := ttl_of t (<[key := Entry (RStr (string_of_Z (n + 1))) dl]> d) key in
           if 0 <? ttl then Some (t + ttl * 1000) else None |},
   World t (<[key := Entry (RStr (string_of_Z (n + 1))) dl]> d)
     [] (Ev (TTL key) true :: Ev (INCR key) true :: lg)).
Proof.
  intros key Hlive Hn Hmax.
  unfold checkLimit, try_catch, bind, redis_incr, redis_expire, redis_ttl,
    Date_now, ret. cbn [from_option]. unfold id. fold key.
  rewrite issue_healthy. unfold exec_incr. rewrite Hlive, Z_of_string_of_Z.
  assert (int64 n = true) as ->.
  { unfold int64. apply andb_true_intro. split; [apply Z.leb_le|apply Z.ltb_lt]; lia. }
  assert (int64 (n + 1) = true) as ->.
  { unfold int64. apply andb_true_intro. split; [apply Z.leb_le|apply Z.ltb_lt]; lia. }
  cbv beta iota zeta.
  destruct (Z.eqb_spec (n + 1) 1) as [?|_]; [lia|].
  rewrite issue_healthy. unfold exec_ttl. cbn [is_ok now]. reflexivity.
Qed.

Lemma live_insert_volatile (t : Z) (d : gmap string entry) (key : string)
    (v : rval) (dl : Z) :
  t <= dl ->
  live t (<[key := Entry v (Some dl)]> d) key = Some (Entry v (Some dl)).
Proof.
  intros Hle. rewrite live_insert_eq. unfold is_dead. cbn [e_deadline].
  destruct (Z.ltb_spec dl t); [lia|reflexivity].
Qed.

(** C1. For a fresh identifier, [maxRequests = 3] and [windowSeconds = 60],
    four successive calls made within the window count 1, 2, 3, 4; the first
    three are allowed, the fourth is refused with nothing remaining, and each
    record has [allowed = (count <= maxRequests)] and
    [remaining = max(0, maxRequests - count)]. *)
Theorem checkLimit_counts_to_limit (identifier : string) (w0 : world)
    (d1 d2 d3 : Z) :
  healthy w0 -> absent w0 ("ratelimit:" +:+ identifier) ->
  0 <= d1 -> 0 <= d2 -> 0 <= d3 -> d1 + d2 + d3 < 60000 ->
  exists r1 w1 r2 w2 r3 w3 r4 w4,
    checkLimit identifier (Some 3) (Some 60) w0 = (Ok r1, w1) /\
    checkLimit identifier (Some 3) (Some 60) (tick d1 w1) = (Ok r2, w2) /\
    checkLimit identifier (Some 3) (Some 60) (tick d2 w2) = (Ok r3, w3) /\
    checkLimit identifier (Some 3) (Some 60) (tick d3 w3) = (Ok r4, w4) /\
    (count r1, allowed r1) = (1, true) /\
    (count r2, allowed r2) = (2, true) /\
    (count r3, allowed r3) = (3, true) /\
    (count r4, allowed r4, remaining r4) = (4, false, 0) /\
    Forall (fun r => allowed r = (count r <=? 3) /\
                     remaining r = Z.max 0 (3 - count r)) [r1; r2; r3; r4].
Proof.
  destruct w0 as [t d fs lg]. unfold healthy, absent. cbn [faults now db].
  intros -> Hfresh Hd1 Hd2 Hd3 Hsum.
  eexists _, _, _, _, _, _, _, _.
  split; [apply checkLimit_first; [exact Hfresh|lia]|].
  split.
  { unfold tick. cbn [now db faults oplog].
    apply (checkLimit_next _ _ _ _ _ _ 1); [|lia|lia].
    apply live_insert_volatile. lia. }
  split.
  { unfold tick. cbn [now db faults oplog].
    apply (checkLimit_next _ _ _ _ _ _ (1 + 1)); [|lia|lia].
    apply live_insert_volatile. lia. }
  split.
  { unfold tick. cbn [now db faults oplog].
    apply (checkLimit_next _ _ _ _ _ _ (1 + 1 + 1)); [|lia|lia].
    apply live_insert_volatile. lia. }
  cbn [count allowed remaining].
  repeat split; repeat constructor.
Qed.

(** One command of a computation, whatever the connection does to it. *)
Ltac step_issue :=
  match goal with
  | |- context [issue ?c ?ex ?w] =>
      let r := fresh "r" in
      let d := fresh "d" in
      let E := fresh "E" in
      destruct (issue_spec c ex w) as (r & d & E & _);
      rewrite E; clear E; cbn [now db faults oplog];
      destruct r as [?|?]; cbv beta iota zeta; cbn [is_ok now]
  end.

(** The commands issued, read off the two logs. *)
Ltac issued_events H :=
  unfold issued in H; cbn [oplog] in H;
  match type of H with
  | ?e1 :: ?e2 :: ?e3 :: ?lg = _ ++ ?lg =>
      change (e1 :: e2 :: e3 :: lg) with ([e1; e2; e3] ++ lg) in H
  | ?e1 :: ?e2 :: ?lg = _ ++ ?lg =>
      change (e1 :: e2 :: lg) with ([e1; e2] ++ lg) in H
  | ?e1 :: ?lg = _ ++ ?lg =>
      change (e1 :: lg) with ([e1] ++ lg) in H
  end;
  apply app_inv_tail in H; subst.

(** C2. [checkLimit] never throws, and when any command it issues fails it
    returns the fail-open record, whose [allowed] is [true]. *)
Theorem checkLimit_fails_open (identifier : string)
    (maxRequests windowSeconds : option Z) (w : world) :
  exists r w',
    checkLimit identifier maxRequests windowSeconds w = (Ok r, w') /\
    forall evs, issued w w' evs -> Exists failed evs ->
      r = fail_open (default 100 maxRequests) /\ allowed r = true.
Proof.
  unfold checkLimit, try_catch, bind, redis_incr, redis_expire, redis_ttl,
    Date_now, ret.
  step_issue; [|eexists _, _; split; [reflexivity|intros; split; reflexivity]].
  match goal with |- context [?c =? 1] => destruct (c =? 1) end.
  - step_issue; [|eexists _, _; split; [reflexivity|intros; split; reflexivity]].
    step_issue; [|eexists _, _; split; [reflexivity|intros; split; reflexivity]].
    eexists _, _. split; [reflexivity|]. intros evs Hev Hex.
    issued_events Hev. rewrite !Exists_cons, Exists_nil in Hex.
    unfold failed in Hex. cbn [ev_ok] in Hex. intuition discriminate.
  - step_issue; [|eexists _, _; split; [reflexivity|intros; split; reflexivity]].
    eexists _, _. split; [reflexivity|]. intros evs Hev Hex.
    issued_events Hev. rewrite !Exists_cons, Exists_nil in Hex.
    unfold failed in Hex. cbn [ev_ok] in Hex. intuition discriminate.
Qed.

(** C8, as the code has it. When the increment succeeds and the TTL lookup
    that follows fails, [checkLimit] returns the fail-open record: [resetTime]
    is [null], and [allowed], [count] and [remaining] are the defaults
    [true], [0] and [maxRequests], not the value of the counter. *)
Theorem checkLimit_ttl_lookup_fails (identifier : string)
    (maxRequests windowSeconds : option Z) (w w1 w2 w3 : world)
    (c x : Z) (e : error) :
  let key := "ratelimit:" +:+ identifier in
  redis_incr key w = (Ok c, w1) ->
  (if c =? 1 then redis_expire key (default 3600 windowSeconds) else ret 0) w1
    = (Ok x, w2) ->
  redis_ttl key w2 = (Throw e, w3) ->
  checkLimit identifier maxRequests windowSeconds w
    = (Ok (fail_open (default 100 maxRequests)), w3).
Proof.
  intros key Hincr Hexp Httl. unfold checkLimit, try_catch, bind. fold key.
  rewrite Hincr. cbv beta iota zeta. rewrite Hexp. cbv beta iota zeta.
  rewrite Httl. reflexivity.
Qed.

(** *** The window is armed once *)

Lemma exec_incr_deadline (key : string) (t : Z) (d d' : gmap string entry)
    (r : result Z) :
  exec_incr key t d = (r, d') -> r <> Ok 1 ->
  e_deadline <$> (d' !! key) = e_deadline <$> (d !! key).
Proof.
  unfold exec_incr. intros Hex Hr.
  destruct (live t d key) as [[[s|z] dl]|] eqn:Hlive.
  - apply live_lookup in Hlive.
    destruct (Z_of_string s) as [n|]; [|injection Hex as <- <-; reflexivity].
    destruct (int64 n); [|injection Hex as <- <-; reflexivity].
    destruct (int64 (n + 1)); injection Hex as <- <-; [|reflexivity].
    rewrite lookup_insert_eq, Hlive. reflexivity.
  - injection Hex as <- <-. reflexivity.
  - injection Hex as <- <-. congruence.
Qed.

Lemma exec_incr_ttl (key : string) (t : Z) (d d' : gmap string entry)
    (r : result Z) :
  exec_incr key t d = (r, d') -> r <> Ok 1 -> ttl_of t d' key = ttl_of t d key.
Proof.
  unfold exec_incr. intros Hex Hr.
  destruct (live t d key) as [[[s|z] dl]|] eqn:Hlive.
  - destruct (Z_of_string s) as [n|]; [|injection Hex as <- <-; reflexivity].
    destruct (int64 n); [|injection Hex as <- <-; reflexivity].
    destruct (int64 (n + 1)); injection Hex as <- <-; [|reflexivity].
    unfold ttl_of. rewrite live_insert_eq, Hlive.
    unfold live in Hlive. destruct (d !! key) as [e|]; [|discriminate].
    destruct (is_dead t e) eqn:Hdead; [discriminate|]. injection Hlive as ->.
    unfold is_dead in *. cbn [e_deadline] in *. rewrite Hdead. reflexivity.
  - injection Hex as <- <-. reflexivity.
  - injection Hex as <- <-. congruence.
Qed.

Lemma ttl_of_tick (key : string) (t dt : Z) (d : gmap string entry) :
  0 <= dt -> ttl_of (t + dt) d key <= ttl_of t d key.
Proof.
  intros Hdt. unfold ttl_of, live, is_dead.
  destruct (d !! key) as [[v [dl|]]|]; cbn [e_deadline]; [|lia|lia].
  destruct (Z.ltb_spec dl (t + dt)), (Z.ltb_spec dl t); cbn [e_deadline]; try lia.
  - assert (0 <= (dl - t + 500) / 1000) by (apply Z.div_pos; lia). lia.
  - apply Z.div_le_mono; lia.
Qed.

(** [EXPIRE] is issued only by the call whose increment returned 1. *)
Lemma checkLimit_expire_only_first (identifier : string)
    (maxRequests windowSeconds : option Z) (w w' : world) (r : limit)
    (evs : list event) (ok : bool) (secs : Z) :
  let key := "ratelimit:" +:+ identifier in
  checkLimit identifier maxRequests windowSeconds w = (Ok r, w') ->
  issued w w' evs -> Ev (EXPIRE key secs) ok ∈ evs ->
  secs = default 3600 windowSeconds /\ exists w1, redis_incr key w = (Ok 1, w1).
Proof.
  intros key. unfold checkLimit, try_catch, bind, redis_incr, redis_expire,
    redis_ttl, Date_now, ret. fold key.
  destruct (issue_spec (INCR key) (exec_incr key) w) as (r1 & d1 & E1 & _).
  rewrite E1. destruct r1 as [c|e]; cbv beta iota zeta; cbn [is_ok].
  2:{ intros [= <- <-] Hev Hin. issued_events Hev.
      apply list_elem_of_singleton in Hin. discriminate. }
  destruct (Z.eqb_spec c 1) as [->|Hc].
  - step_issue; [step_issue|]; intros [= <- <-] Hev Hin; issued_events Hev;
      rewrite ?elem_of_cons, elem_of_nil in Hin;
      (split; [|eauto]);
      destruct Hin as [Hin|[Hin|Hin]]; try discriminate;
      try (destruct Hin as [Hin|Hin]; try discriminate);
      try contradiction; congruence.
  - step_issue; intros [= <- <-] Hev Hin; issued_events Hev;
      rewrite ?elem_of_cons, elem_of_nil in Hin;
      destruct Hin as [Hin|[Hin|Hin]]; try discriminate; contradiction.
Qed.

(** A call whose increment did not return 1 leaves the deadline of the
    counter where it was. *)
Lemma checkLimit_keeps_deadline (identifier : string)
    (maxRequests windowSeconds : option Z) (w w' : world) (r : limit) :
  let key := "ratelimit:" +:+ identifier in
  checkLimit identifier maxRequests windowSeconds w = (Ok r, w') ->
  (forall w1, redis_incr key w <> (Ok 1, w1)) ->
  e_deadline <$> (db w' !! key) = e_deadline <$> (db w !! key).
Proof.
  intros key. unfold checkLimit, try_catch, bind, redis_incr, redis_expire,
    redis_ttl, Date_now, ret. fold key.
  destruct (issue_spec (INCR key) (exec_incr key) w) as (r1 & d1 & E1 & Hr1).
  rewrite E1. intros Hcall Hnot1.
  assert (Hd1 : e_deadline <$> (d1 !! key) = e_deadline <$> (db w !! key)).
  { destruct Hr1 as [[_ ->]|Hex]; [reflexivity|].
    symmetry in Hex. apply (exec_incr_deadline _ _ _ _ _ Hex).
    intros ->. eapply Hnot1. reflexivity. }
  destruct r1 as [c|e]; cbv beta iota zeta in Hcall; cbn [is_ok] in Hcall.
  2:{ injection Hcall as <- <-. exact Hd1. }
  destruct (Z.eqb_spec c 1) as [->|Hc]; [exfalso; eapply Hnot1; reflexivity|].
  revert Hcall.
  destruct (issue_spec (TTL key) (exec_ttl key)
              (World (now w) d1 (tail (faults w)) (Ev (INCR key) true :: oplog w)))
    as (r3 & d3 & E3 & Hr3).
  rewrite E3. cbn [now db faults oplog] in *.
  assert (d3 = d1) as -> by (destruct Hr3 as [[_ ->]|[= _ ->]]; reflexivity).
  destruct r3; intros [= <- <-]; exact Hd1.
Qed.

Lemma exec_expire_ok (key : string) (secs t : Z) (d : gmap string entry) :
  exists x d', exec_expire key secs t d = (Ok x, d').
Proof.
  unfold exec_expire. destruct (live t d key); [destruct (secs <=? 0)|]; eauto.
Qed.

(** With a working connection, a call that does not count 1 leaves the time
    to live of the counter as it found it. *)
Lemma checkLimit_keeps_ttl (identifier : string)
    (maxRequests windowSeconds : option Z) (w w' : world) (r : limit) :
  let key := "ratelimit:" +:+ identifier in
  healthy w ->
  checkLimit identifier maxRequests windowSeconds w = (Ok r, w') ->
  count r <> 1 ->
  healthy w' /\ now w' = now w /\
  ttl_of (now w) (db w') key = ttl_of (now w) (db w) key.
Proof.
  intros key. destruct w as [t d fs lg]. unfold healthy. cbn [faults now db].
  intros ->. unfold checkLimit, try_catch, bind, redis_incr, redis_expire,
    redis_ttl, Date_now, ret. fold key.
  rewrite issue_healthy. destruct (exec_incr key t d) as [r1 d1] eqn:Hex.
  destruct r1 as [c|e]; cbv beta iota zeta; cbn [is_ok].
  2:{ intros [= <- <-] _. cbn [faults now db]. repeat split.
      apply (exec_incr_ttl _ _ _ _ _ Hex). discriminate. }
  destruct (Z.eqb_spec c 1) as [->|Hc].
  - rewrite issue_healthy.
    destruct (exec_expire_ok key (default 3600 windowSeconds) t d1)
      as (x & d2 & ->).
    cbv beta iota zeta. rewrite issue_healthy. unfold exec_ttl.
    cbv beta iota zeta. intros [= <- <-]. cbn [count]. congruence.
  - rewrite issue_healthy. unfold exec_ttl. cbv beta iota zeta.
    intros [= <- <-] _. cbn [faults now db]. repeat split.
    apply (exec_incr_ttl _ _ _ _ _ Hex). congruence.
Qed.

Lemma calls_non_increasing (identifier : string)
    (maxRequests windowSeconds : option Z) (delays : list Z) :
  forall w,
    healthy w -> Forall (Z.le 0) delays ->
    Forall (fun rt => count rt.1 <> 1)
      (calls identifier maxRequests windowSeconds delays w) ->
    non_increasing
      (ttl_of (now w) (db w) ("ratelimit:" +:+ identifier)
       :: (calls identifier maxRequests windowSeconds delays w).*2).
Proof.
  induction delays as [|dt delays IH]; intros w Hw Hds Hcalls; [exact I|].
  cbn [calls] in *.
  destruct (checkLimit identifier maxRequests windowSeconds (tick dt w))
    as [[r|e] w'] eqn:Hcall; [|exact I].
  inversion Hds as [|? ? Hdt Hds']; subst.
  inversion Hcalls as [|? ? Hr Hcalls']; subst. cbn [fst] in Hr.
  assert (Htick : healthy (tick dt w)) by exact Hw.
  destruct (checkLimit_keeps_ttl _ _ _ _ _ _ Htick Hcall Hr) as (Hw' & Hnow & Httl).
  cbn [fmap list_fmap snd non_increasing]. split.
  - rewrite Hnow, Httl. cbn [tick now db]. apply ttl_of_tick. exact Hdt.
  - apply (IH w' Hw' Hds' Hcalls').
Qed.

(** C3. [checkLimit] sets the time to live of the counter, to
    [windowSeconds], only in the call whose increment returned 1; any other
    call leaves the deadline of the counter where it was; hence over the
    later calls of a window the time to live never grows. *)
Theorem checkLimit_arms_window_once (identifier : string)
    (maxRequests windowSeconds : option Z) :
  let key := "ratelimit:" +:+ identifier in
  (forall w w' r evs ok secs,
     checkLimit identifier maxRequests windowSeconds w = (Ok r, w') ->
     issued w w' evs -> Ev (EXPIRE key secs) ok ∈ evs ->
     secs = default 3600 windowSeconds /\
     exists w1, redis_incr key w = (Ok 1, w1)) /\
  (forall w w' r,
     checkLimit identifier maxRequests windowSeconds w = (Ok r, w') ->
     (forall w1, redis_incr key w <> (Ok 1, w1)) ->
     e_deadline <$> (db w' !! key) = e_deadline <$> (db w !! key)) /\
  (forall w delays,
     healthy w -> Forall (Z.le 0) delays ->
     Forall (fun rt => count rt.1 <> 1)
       (calls identifier maxRequests windowSeconds delays w) ->
     non_increasing
       (ttl_of (now w) (db w) key
        :: (calls identifier maxRequests windowSeconds delays w).*2)).
Proof.
  intros key. split; [|split].
  - intros w w' r evs ok secs. apply checkLimit_expire_only_first.
  - intros w w' r. apply checkLimit_keeps_deadline.
  - intros w delays. apply calls_non_increasing.
Qed.

End RateLimiter.

(** ** [queue] *)


Lemma zremove_cons_eq (member : string) (score : Z) (z : list (string * Z)) :
  zremove member ((member, score) :: z) = zremove member z.
Proof. unfold zremove. rewrite filter_cons_False; [reflexivity|]. cbn. tauto. Qed.

Lemma zremove_cons_ne (member m : string) (score : Z) (z : list (string * Z)) :
  m <> member ->
  zremove member ((m, score) :: z) = (m, score) :: zremove member z.
Proof. intros Hne. unfold zremove. rewrite filter_cons_True; [reflexivity|exact Hne]. Qed.

(** [ZPOPMAX] picks a member and no member has a higher score. *)
Lemma zmax_highest (z : list (string * Z)) (x : string * Z) :
  zmax z = Some x -> x ∈ z /\ forall y, y ∈ z -> y.2 <= x.2.
Proof.
  revert x. induction z as [|a z IH]; intros x; [discriminate|].
  cbn [zmax]. destruct (zmax z) as [y|] eqn:Hz.
  - destruct (IH y eq_refl) as [Hy Hmax].
    destruct (zless a y) eqn:Hless; intros [= <-].
    + split; [right; exact Hy|]. intros y' [->|Hy']%elem_of_cons; [|auto].
      unfold zless in Hless. lia.
    + split; [left|]. intros y' [->|Hy']%elem_of_cons; [lia|].
      specialize (Hmax y' Hy'). unfold zless in Hless.
      apply orb_false_iff in Hless as [Hlt _]. lia.
  - intros [= <-]. destruct z as [|b z].
    + split; [left|]. intros y ->%list_elem_of_singleton. lia.
    + cbn [zmax] in Hz. destruct (zmax z); [destruct (zless b p)|]; discriminate.
Qed.

Section QueueLength.

(** C10. When the cardinality call fails, [getQueueLength] returns 0, which
    is also what it returns for a queue that does not exist: the result does
    not tell an outage from an empty queue. *)
Theorem getQueueLength_outage_as_empty (queueName : string)
    (w_out w_out' w_empty : world) (e : error) :
  let key := "queue:" +:+ queueName in
  redis_zcard key w_out = (Throw e, w_out') ->
  healthy w_empty -> absent w_empty key ->
  getQueueLength queueName w_out = (Ok 0, w_out') /\
  exists w', getQueueLength queueName w_empty = (Ok 0, w').
Proof.
  intros key Hout Hw Hempty. unfold getQueueLength, try_catch. fold key. split.
  - rewrite Hout. reflexivity.
  - destruct w_empty as [t d fs lg]. unfold healthy, absent in *.
    cbn [faults now db] in *. subst fs. unfold redis_zcard.
    rewrite issue_healthy. unfold exec_zcard. rewrite Hempty.
    eexists. reflexivity.
Qed.

End QueueLength.

Section Queue.
Context `{JSONLaws}.




(** With a working connection [getNextJob] pops a member of highest score
    and returns the document it holds. *)
Lemma getNextJob_highest (queueName : string) (t : Z) (d : gmap string entry)
    (lg : list event) (z : list (string * Z)) (dl : option Z)
    (member : string) (score : Z) :
  let key := "queue:" +:+ queueName in
  live t d key = Some (Entry (RZSet z) dl) ->
  zmax z = Some (member, score) ->
  getNextJob queueName (World t d [] lg) =
  (Ok (default JNull (JSON_parse member)),
   World t (match zremove member z with
            | [] => delete key d
            | z' => <[key := Entry (RZSet z') dl]> d
            end)
     [] (Ev (ZPOPMAX key) true :: lg)).
Proof.
  intros key Hlive Hmax. unfold getNextJob, try_catch, bind, redis_zpopmax.
  fold key. rewrite issue_healthy. unfold exec_zpopmax. rewrite Hlive, Hmax.
  cbv beta iota zeta. cbn [is_ok]. unfold JSON_parse_throw.
  destruct (JSON_parse member); reflexivity.
Qed.

(** [addJob] over a working connection. *)
Lemma addJob_healthy (queueName : string) (jobData : json) (priority : Z)
    (suffix : string) (t : Z) (d : gmap string entry) (lg : list event) :
  let key := "queue:" +:+ queueName in
  let jobId := "job:" +:+ string_of_Z t +:+ ":" +:+ suffix in
  let member := JSON_stringify (job_record jobId jobData priority t) in
  addJob queueName jobData (Some priority) suffix (World t d [] lg) =
  match live t d key with
  | None =>
      (Ok (Some jobId),
       World t (<[key := Entry (RZSet [(member, priority)]) None]> d) []
         (Ev (ZADD key priority member) true :: lg))
  | Some (Entry (RZSet z) dl) =>
      (Ok (Some jobId),
       World t (<[key := Entry (RZSet ((member, priority) :: zremove member z)) dl]> d)
         [] (Ev (ZADD key priority member) true :: lg))
  | Some (Entry (RStr _) _) =>
      (Ok None, World t d [] (Ev (ZADD key priority member) false :: lg))
  end.
Proof.
  intros key jobId member.
  unfold addJob, try_catch, bind, Date_now, ret, redis_zadd.
  cbn [from_option now]. unfold id. fold key jobId member.
  rewrite issue_healthy. unfold exec_zadd.
  destruct (live t d key) as [[[s|z] dl]|]; reflexivity.
Qed.

Lemma getQueueLength_healthy (queueName : string) (t : Z)
    (d : gmap string entry) (lg : list event) (z : list (string * Z))
    (dl : option Z) :
  let key := "queue:" +:+ queueName in
  live t d key = Some (Entry (RZSet z) dl) ->
  getQueueLength queueName (World t d [] lg) =
  (Ok (Z.of_nat (length z)), World t d [] (Ev (ZCARD key) true :: lg)).
Proof.
  intros key Hlive. unfold getQueueLength, try_catch, redis_zcard. fold key.
  rewrite issue_healthy. unfold exec_zcard. rewrite Hlive. reflexivity.
Qed.


End Queue.

(** ** [cache] *)

Section Cache.
Context `{JSONLaws}.

(** [cache.set] over a working connection: a zero TTL stores a persistent
    key, a negative one is refused by the server, a positive one stores a
    volatile key. *)
Lemma cache_set_healthy (key : string) (value : json) (ttlSeconds : option Z)
    (t : Z) (d : gmap string entry) (lg : list event) :
  let secs := default 3600 ttlSeconds in
  let text := JSON_stringify value in
  cache_set key value ttlSeconds (World t d [] lg) =
  if secs =? 0 then
    (Ok true, World t (<[key := Entry (RStr text) None]> d) []
                (Ev (SET key text) true :: lg))
  else if secs <=? 0 then
    (Ok false, World t d [] (Ev (SETEX key secs text) false :: lg))
  else
    (Ok true, World t (<[key := Entry (RStr text) (Some (t + 1000 * secs))]> d) []
                (Ev (SETEX key secs text) true :: lg)).
Proof.
  intros secs text. unfold cache_set, try_catch, bind, redis_set, redis_setex, ret.
  fold secs text. destruct (secs =? 0); cbn [negb].
  - rewrite issue_healthy. reflexivity.
  - rewrite issue_healthy. unfold exec_setex. destruct (secs <=? 0); reflexivity.
Qed.

(** [cache.get] over a working connection reads the stored document and
    changes nothing but the log. *)
Lemma cache_get_healthy (key : string) (t : Z) (d : gmap string entry)
    (lg : list event) :
  cache_get key (World t d [] lg)
  = (Ok (stored_doc t d key),
     World t d [] (Ev (GET key) (is_ok (exec_get key t d).1) :: lg)).
Proof.
  unfold cache_get, try_catch, bind, redis_get, ret, stored_doc.
  rewrite issue_healthy. unfold exec_get.
  destruct (live t d key) as [[[text|z] dl]|]; cbv beta iota zeta;
    cbn [is_ok fst]; [|reflexivity..].
  destruct (String.eqb text ""); cbn [negb]; [reflexivity|].
  unfold JSON_parse_throw, throw, ret.
  destruct (JSON_parse text); reflexivity.
Qed.

Lemma stored_doc_live (t : Z) (d : gmap string entry) (key : string)
    (value : json) (dl : option Z) :
  live t d key = Some (Entry (RStr (JSON_stringify value)) dl) ->
  stored_doc t d key = value.
Proof.
  intros Hlive. unfold stored_doc. rewrite Hlive.
  destruct (String.eqb_spec (JSON_stringify value) "") as [E|_].
  - destruct (stringify_nonempty _ E).
  - rewrite parse_stringify. reflexivity.
Qed.

Lemma live_unexpired (t dt : Z) (d : gmap string entry) (key : string)
    (v : rval) (secs : Z) :
  unexpired secs dt -> secs <> 0 ->
  live (t + dt) (<[key := Entry v (Some (t + 1000 * secs))]> d) key
  = Some (Entry v (Some (t + 1000 * secs))).
Proof.
  intros (Hdt & Hsecs & [?|Hle]) Hnz; [congruence|].
  apply live_insert_volatile. lia.
Qed.

(** C6. A document written by [cache.set] is what [cache.get] reads back,
    as long as the key has not expired and the connection works. *)
Theorem cache_set_get_roundtrip (key : string) (value : json)
    (ttlSeconds : option Z) (w : world) (dt : Z) :
  healthy w -> unexpired (default 3600 ttlSeconds) dt ->
  exists w1 w2,
    cache_set key value ttlSeconds w = (Ok true, w1) /\
    cache_get key (tick dt w1) = (Ok value, w2).
Proof.
  destruct w as [t d fs lg]. unfold healthy. cbn [faults]. intros -> Hun.
  rewrite cache_set_healthy.
  destruct (Z.eqb_spec (default 3600 ttlSeconds) 0) as [E|Hnz].
  - eexists _, _. split; [reflexivity|]. unfold tick. cbn [now db faults oplog].
    rewrite cache_get_healthy.
    rewrite (stored_doc_live _ _ _ value None); [reflexivity|].
    apply live_insert_eq.
  - destruct (Z.leb_spec (default 3600 ttlSeconds) 0) as [Hle|_].
    { destruct Hun as (_ & ? & _). lia. }
    eexists _, _. split; [reflexivity|]. unfold tick. cbn [now db faults oplog].
    rewrite cache_get_healthy.
    rewrite (stored_doc_live _ _ _ value (Some (t + 1000 * default 3600 ttlSeconds)));
      [reflexivity|].
    apply live_unexpired; assumption.
Qed.

(** C7, as the code has it. [cache.set] with [ttlSeconds = 0] is accepted:
    it returns [true] and stores the key without a time to live, so that the
    key is read back at any later time until it is deleted. A negative
    [ttlSeconds] is refused (the call returns [false] and stores nothing), so
    the least time to live a key can get is 1 second. A call that omits
    [ttlSeconds] stores the key with the default time to live of 3600
    seconds. *)
Theorem cache_set_ttl_zero_persists (key : string) (value : json) (w : world) :
  healthy w ->
  (exists w1,
     cache_set key value (Some 0) w = (Ok true, w1) /\
     db w1 !! key = Some (Entry (RStr (JSON_stringify value)) None) /\
     (forall dt, 0 <= dt ->
        exists w2, cache_get key (tick dt w1) = (Ok value, w2)) /\
     exists w2 w3,
       cache_del key w1 = (Ok true, w2) /\ cache_get key w2 = (Ok JNull, w3)) /\
  (forall ttl, ttl < 0 ->
     exists w1, cache_set key value (Some ttl) w = (Ok false, w1) /\ db w1 = db w) /\
  (exists w1,
     cache_set key value None w = (Ok true, w1) /\
     db w1 !! key
     = Some (Entry (RStr (JSON_stringify value)) (Some (now w + 1000 * 3600)))).
Proof.
  destruct w as [t d fs lg]. unfold healthy. cbn [faults]. intros ->.
  split; [|split].
  - rewrite cache_set_healthy. cbn [from_option Z.eqb]. unfold id.
    eexists. split; [reflexivity|]. cbn [db]. split; [apply lookup_insert_eq|].
    split.
    + intros dt Hdt. unfold tick. cbn [now db faults oplog].
      rewrite cache_get_healthy.
      rewrite (stored_doc_live _ _ _ value None); [eauto|apply live_insert_eq].
    + unfold cache_del, try_catch, bind, redis_del, ret.
      rewrite issue_healthy. unfold exec_del. rewrite live_insert_eq.
      cbn [is_dead e_deadline]. cbv beta iota zeta. eexists _, _.
      split; [reflexivity|].
      rewrite cache_get_healthy.
      unfold stored_doc. rewrite live_delete_eq. reflexivity.
  - intros ttl Httl. rewrite cache_set_healthy. cbn [from_option]. unfold id.
    destruct (Z.eqb_spec ttl 0); [lia|]. destruct (Z.leb_spec ttl 0); [|lia].
    eexists. split; reflexivity.
  - rewrite cache_set_healthy. cbn [from_option Z.eqb Z.leb Z.compare].
    eexists. split; [reflexivity|]. cbn [db now]. apply lookup_insert_eq.
Qed.

End Cache.

(** ** [conversationCache] *)

Section Conversation.
Context `{JSONLaws}.

(** C5. When the stored state of a participant is an object whose
    [contextData] is the object [old], [updateStep] with the step [step] and
    the context [new] stores a state in which [step] is the new step,
    [contextData] is the shallow merge of [new] into [old] (the keys of [old]
    that [new] does not mention are kept), [updatedAt] is the time of the
    call and every other property is unchanged; for [{a: 1}] and [{b: 2}] the
    merge is [{a: 1, b: 2}]. *)
Theorem updateStep_merges (contactId : string)
    (state old new : gmap string json) (step : json) (w : world) (dt : Z) :
  let key := "conversation:" +:+ contactId in
  healthy w -> stored_doc (now w) (db w) key = JObj state ->
  state !! "contextData" = Some (JObj old) -> 0 <= dt <= 7200 * 1000 ->
  exists w1 w2 state',
    updateStep contactId step (Some (JObj new)) w = (Ok true, w1) /\
    getState contactId (tick dt w1) = (Ok (JObj state'), w2) /\
    state' !! "step" = Some step /\
    state' !! "contextData" = Some (JObj (new ∪ old)) /\
    state' !! "updatedAt" = Some (JStr (toISOString (now w))) /\
    (forall k, k ∉ ["step"; "contextData"; "updatedAt"] ->
       state' !! k = state !! k) /\
    (forall k v, old !! k = Some v -> new !! k = None ->
       (new ∪ old) !! k = Some v) /\
    (forall k v, new !! k = Some v -> (new ∪ old) !! k = Some v) /\
    (old = {[ "a" := JNum 1 ]} -> new = {[ "b" := JNum 2 ]} ->
       new ∪ old = <["a" := JNum 1]> {[ "b" := JNum 2 ]}).
Proof.
  intros key. destruct w as [t d fs lg]. unfold healthy. cbn [faults now db].
  intros -> Hstate Hctx Hdt.
  unfold updateStep, bind, Date_now. cbn [from_option]. unfold id. fold key.
  rewrite cache_get_healthy, Hstate. cbn [truthy now].
  rewrite cache_set_healthy. cbn [from_option Z.eqb Z.leb Z.compare]. unfold id.
  unfold updatedState. cbn [get_prop own_props]. rewrite Hctx.
  cbn [own_props]. unfold spread.
  eexists _, _, _. split; [reflexivity|].
  unfold getState, tick. cbn [now db faults oplog]. fold key.
  rewrite cache_get_healthy.
  erewrite stored_doc_live; [|apply live_insert_volatile; lia].
  split; [reflexivity|].
  split; [rewrite !lookup_insert_ne, lookup_insert_eq by discriminate; reflexivity|].
  split; [rewrite lookup_insert_ne, lookup_insert_eq by discriminate; reflexivity|].
  split; [apply lookup_insert_eq|].
  split.
  { intros k Hk. rewrite !not_elem_of_cons in Hk. destruct Hk as (? & ? & ? & _).
    rewrite !lookup_insert_ne by congruence. reflexivity. }
  split.
  { intros k v Hold Hnew. rewrite lookup_union_r by exact Hnew. exact Hold. }
  split.
  { intros k v Hnew. apply lookup_union_Some_l. exact Hnew. }
  intros -> ->. apply map_eq. intros k.
  destruct (decide (k = "a")) as [->|Ha]; [reflexivity|].
  destruct (decide (k = "b")) as [->|Hb]; [reflexivity|].
  rewrite lookup_union, lookup_insert_ne, !lookup_singleton_ne by congruence.
  reflexivity.
Qed.

End Conversation.

(** ** [sessionStore] *)

Lemma glob_star (s : string) : glob_match "*" s = true.
Proof.
  induction s as [|c s IH]; [reflexivity|].
  change (glob_match "*" (String c s))
    with (glob_match "" (String c s) || glob_match "*" s).
  rewrite IH. apply orb_true_r.
Qed.

Lemma glob_session (sessionId : string) :
  glob_match "session:*" ("session:" +:+ sessionId) = true.
Proof. exact (glob_star sessionId). Qed.


Lemma omap_filter_None {A B} (f : A -> option B) (P : A -> Prop)
    `{forall x, Decision (P x)} (l : list A) :
  (forall x, x ∈ l -> ~ P x -> f x = None) ->
  omap f (filter P l) = omap f l.
Proof.
  induction l as [|x l IH]; intros Hf; [reflexivity|].
  rewrite filter_cons. destruct (decide (P x)) as [HP|HP]; cbn [omap list_omap].
  - rewrite IH; [reflexivity|]. intros y Hy. apply Hf. right. exact Hy.
  - rewrite (Hf x); [|left|exact HP]. apply IH. intros y Hy. apply Hf. right. exact Hy.
Qed.

Lemma omap_ext_in {A B} (f g : A -> option B) (l : list A) :
  (forall x, x ∈ l -> f x = g x) -> omap f l = omap g l.
Proof.
  induction l as [|x l IH]; intros Hfg; [reflexivity|].
  cbn [omap list_omap]. rewrite (Hfg x) by left. rewrite IH; [reflexivity|].
  intros y Hy. apply Hfg. right. exact Hy.
Qed.


Section Sessions.
Context `{JSONLaws}.

Lemma scan_sessions_healthy (userId : string) (keys : list string) :
  forall (sessions : list json) (t : Z) (d : gmap string entry) (lg : list event),
  exists lg',
    scan_sessions userId keys sessions (World t d [] lg)
    = (Ok (sessions ++ omap (visit userId t d) keys), World t d [] lg').
Proof.
  induction keys as [|key keys IH]; intros sessions t d lg.
  - cbn [scan_sessions omap list_omap]. rewrite app_nil_r. eexists. reflexivity.
  - cbn [scan_sessions]. unfold bind. rewrite cache_get_healthy.
    cbn [omap list_omap]. unfold visit at 1.
    destruct (truthy (stored_doc t d key)
              && userId_is (stored_doc t d key) userId).
    + edestruct IH as [lg' ->]. rewrite <- app_assoc. eexists. reflexivity.
    + apply IH.
Qed.

(** Over a working connection [getUserSessions] visits every key of the
    session namespace. *)
Lemma getUserSessions_healthy (userId : string) (t : Z)
    (d : gmap string entry) (lg : list event) :
  exists lg',
    getUserSessions userId (World t d [] lg)
    = (Ok (omap (fun key => if glob_match "session:*" key
                            then visit userId t d key else None)
             (map_to_list d).*1),
       World t d [] lg').
Proof.
  unfold getUserSessions, try_catch, bind, redis_keys.
  rewrite issue_healthy. unfold exec_keys.
  edestruct scan_sessions_healthy as [lg' ->]. exists lg'.
  cbn [app]. f_equal. f_equal.
  set (g := fun key => if glob_match "session:*" key
                       then visit userId t d key else None).
  rewrite <- (omap_filter_None g
    (fun key => glob_match "session:*" key = true /\ is_Some (live t d key))).
  - apply omap_ext_in. intros key [[Hglob _] _]%list_elem_of_filter.
    unfold g. rewrite Hglob. reflexivity.
  - intros key _ HP. unfold g.
    destruct (glob_match "session:*" key) eqn:Hglob; [|reflexivity].
    unfold visit, stored_doc.
    destruct (live t d key) as [e|]; [|reflexivity].
    exfalso. apply HP. split; [reflexivity|eauto].
Qed.

Lemma cache_set_accepted (key : string) (value : json) (secs : Z)
    (t : Z) (d : gmap string entry) (lg : list event) :
  0 <= secs ->
  exists ev,
    cache_set key value (Some secs) (World t d [] lg)
    = (Ok true,
       World t (<[key := written t (JSON_stringify value) secs]> d) [] (ev :: lg)).
Proof.
  intros Hsecs. rewrite cache_set_healthy. cbn [from_option]. unfold id, written.
  destruct (Z.eqb_spec secs 0); [eexists; reflexivity|].
  destruct (Z.leb_spec secs 0); [lia|]. eexists. reflexivity.
Qed.

Lemma live_written (t dt : Z) (d : gmap string entry) (key text : string)
    (secs : Z) :
  unexpired secs dt ->
  live (t + dt) (<[key := written t text secs]> d) key
  = Some (written t text secs).
Proof.
  intros Hun. unfold written. destruct (Z.eqb_spec secs 0) as [->|Hnz].
  - apply live_insert_eq.
  - apply live_unexpired; assumption.
Qed.

Lemma session_key_inj (sid sid' : string) :
  "session:" +:+ sid = "session:" +:+ sid' -> sid = sid'.
Proof. intros [= E]. exact E. Qed.

(** What is pushed for a live session of the user. *)
Lemma visit_session (userId sessionId : string) (data : json) (t : Z)
    (d : gmap string entry) (dl : option Z) :
  let key := "session:" +:+ sessionId in
  live t d key = Some (Entry (RStr (JSON_stringify data)) dl) ->
  get_prop data "userId" = Some (JStr userId) ->
  visit userId t d key
  = Some (JObj (spread {[ "sessionId" := JStr sessionId ]}
                       (own_props (Some data)))).
Proof.
  intros key Hlive Huser. unfold visit.
  rewrite (stored_doc_live _ _ _ _ _ Hlive).
  unfold userId_is. rewrite Huser, String.eqb_refl.
  destruct data; try discriminate. cbn [truthy andb].
  unfold session_record, key. rewrite replace_prefix. reflexivity.
Qed.



End Sessions.

(** ** The properties on sample worlds *)

Lemma checkLimit_counts_to_limit_witness :
  exists r1 w1 r2 w2 r3 w3 r4 w4,
    checkLimit "alice" (Some 3) (Some 60) empty_store = (Ok r1, w1) /\
    checkLimit "alice" (Some 3) (Some 60) (tick 1000 w1) = (Ok r2, w2) /\
    checkLimit "alice" (Some 3) (Some 60) (tick 2000 w2) = (Ok r3, w3) /\
    checkLimit "alice" (Some 3) (Some 60) (tick 3000 w3) = (Ok r4, w4) /\
    (count r1, allowed r1) = (1, true) /\
    (count r2, allowed r2) = (2, true) /\
    (count r3, allowed r3) = (3, true) /\
    (count r4, allowed r4, remaining r4) = (4, false, 0) /\
    Forall (fun r => allowed r = (count r <=? 3) /\
                     remaining r = Z.max 0 (3 - count r)) [r1; r2; r3; r4].
Proof.
  apply (checkLimit_counts_to_limit "alice" empty_store 1000 2000 3000);
    [reflexivity|reflexivity|lia|lia|lia|lia].
Defined.

Lemma checkLimit_fails_open_witness :
  exists w',
    checkLimit "alice" (Some 3) (Some 60) unreachable_store
    = (Ok (fail_open 3), w') /\
    Exists failed (oplog w').
Proof.
  destruct (checkLimit_fails_open "alice" (Some 3) (Some 60) unreachable_store)
    as (r & w' & E & Hfail).
  exists w'. vm_compute in E. injection E as <- <-.
  split; [reflexivity|]. left. reflexivity.
Defined.

Lemma checkLimit_arms_window_once_witness :
  let w1 := (checkLimit "alice" (Some 3) (Some 60) empty_store).2 in
  non_increasing
    (ttl_of (now w1) (db w1) "ratelimit:alice"
     :: (calls "alice" (Some 3) (Some 60) [1000; 2000; 500] w1).*2) /\
  (calls "alice" (Some 3) (Some 60) [1000; 2000; 500] w1).*2 = [59; 57; 57].
Proof.
  split; [|vm_compute; reflexivity].
  apply (proj2 (proj2 (checkLimit_arms_window_once "alice" (Some 3) (Some 60)))).
  - reflexivity.
  - repeat constructor; lia.
  - vm_compute. repeat constructor; discriminate.
Defined.

(** C8, as the spec words it, fails: the counter stands at 3, the increment
    succeeds and returns 4, the TTL lookup is lost, and the record says
    [count = 0] and [allowed = true] where the counter says 4 and 4 > 3. *)
Lemma checkLimit_ttl_lookup_counterexample :
  exists w1 e w2 r,
    redis_incr "ratelimit:alice" flaky_store = (Ok 4, w1) /\
    redis_ttl "ratelimit:alice" w1 = (Throw e, w2) /\
    checkLimit "alice" (Some 3) (Some 60) flaky_store = (Ok r, w2) /\
    resetTime r = None /\
    ~ (count r = 4 /\ allowed r = (4 <=? 3)).
Proof.
  eexists _, _, _, _. split; [vm_compute; reflexivity|].
  split; [vm_compute; reflexivity|].
  split; [vm_compute; reflexivity|].
  split; [reflexivity|]. cbn [count allowed]. intros [? _]. discriminate.
Qed.

Lemma checkLimit_ttl_lookup_fails_witness :
  let w1 := (redis_incr "ratelimit:alice" flaky_store).2 in
  let w3 := (redis_ttl "ratelimit:alice" w1).2 in
  checkLimit "alice" (Some 3) (Some 60) flaky_store = (Ok (fail_open 3), w3).
Proof.
  apply (checkLimit_ttl_lookup_fails "alice" (Some 3) (Some 60) flaky_store
           (redis_incr "ratelimit:alice" flaky_store).2
           (redis_incr "ratelimit:alice" flaky_store).2
           (redis_ttl "ratelimit:alice"
              (redis_incr "ratelimit:alice" flaky_store).2).2
           4 0 StoreUnavailable);
    vm_compute; reflexivity.
Defined.

Lemma getQueueLength_outage_as_empty_witness :
  getQueueLength "whatsapp_messages" unreachable_store
  = (Ok 0, (redis_zcard "queue:whatsapp_messages" unreachable_store).2) /\
  exists w',
    getQueueLength "whatsapp_messages" empty_store = (Ok 0, w').
Proof.
  apply (getQueueLength_outage_as_empty "whatsapp_messages" unreachable_store
           (redis_zcard "queue:whatsapp_messages" unreachable_store).2
           empty_store StoreUnavailable);
    reflexivity.
Defined.


Lemma cache_set_get_roundtrip_witness :
  exists w1 w2,
    cache_set "greeting" (JArr [JStr "hello"; JNum (-7); JNull]) None empty_store
      = (Ok true, w1) /\
    cache_get "greeting" (tick 5000 w1)
      = (Ok (JArr [JStr "hello"; JNum (-7); JNull]), w2).
Proof.
  apply (cache_set_get_roundtrip "greeting"
           (JArr [JStr "hello"; JNum (-7); JNull]) None empty_store 5000).
  - reflexivity.
  - unfold unexpired. cbn [from_option]. unfold id. lia.
Defined.

(** C7, as the spec words it, fails: [cache.set] with [ttlSeconds = 0] is
    not rejected, it returns [true] and the value is stored; and a call
    that gives no [ttlSeconds] stores a key that is gone after an hour. *)
Lemma cache_set_ttl_zero_counterexample :
  (exists w1,
     cache_set "greeting" (JStr "hello") (Some 0) empty_store = (Ok true, w1) /\
     db w1 !! "greeting"
     = Some (Entry (RStr (JSON_stringify (JStr "hello"))) None)) /\
  (exists w1 w2,
     cache_set "greeting" (JStr "hello") None empty_store = (Ok true, w1) /\
     cache_get "greeting" (tick 3600001 w1) = (Ok JNull, w2)).
Proof.
  split.
  - eexists. split; vm_compute; reflexivity.
  - eexists _, _. split; vm_compute; reflexivity.
Qed.

Lemma cache_set_ttl_zero_persists_witness :
  (exists w1,
     cache_set "greeting" (JStr "hello") (Some 0) empty_store = (Ok true, w1) /\
     db w1 !! "greeting"
     = Some (Entry (RStr (JSON_stringify (JStr "hello"))) None) /\
     (forall dt, 0 <= dt ->
        exists w2, cache_get "greeting" (tick dt w1) = (Ok (JStr "hello"), w2)) /\
     exists w2 w3,
       cache_del "greeting" w1 = (Ok true, w2) /\
       cache_get "greeting" w2 = (Ok JNull, w3)) /\
  (forall ttl, ttl < 0 ->
     exists w1,
       cache_set "greeting" (JStr "hello") (Some ttl) empty_store = (Ok false, w1) /\
       db w1 = db empty_store) /\
  (exists w1,
     cache_set "greeting" (JStr "hello") None empty_store = (Ok true, w1) /\
     db w1 !! "greeting"
     = Some (Entry (RStr (JSON_stringify (JStr "hello")))
               (Some (now empty_store + 1000 * 3600)))).
Proof.
  apply (cache_set_ttl_zero_persists "greeting" (JStr "hello") empty_store).
  reflexivity.
Defined.

Lemma updateStep_merges_witness :
  let w := (setState "alice" (JObj step_one) None empty_store).2 in
  exists w1 w2 state',
    updateStep "alice" (JNum 2) (Some (JObj {[ "b" := JNum 2 ]})) w = (Ok true, w1) /\
    getState "alice" (tick 1000 w1) = (Ok (JObj state'), w2) /\
    state' !! "step" = Some (JNum 2) /\
    state' !! "contextData"
    = Some (JObj (<["a" := JNum 1]> {[ "b" := JNum 2 ]})) /\
    state' !! "updatedAt" = Some (JStr "2023-11-14T22:13:20.000Z").
Proof.
  destruct (updateStep_merges "alice" step_one {[ "a" := JNum 1 ]}
              {[ "b" := JNum 2 ]} (JNum 2)
              (setState "alice" (JObj step_one) None empty_store).2 1000)
    as (w1 & w2 & state' & Hup & Hget & Hstep & Hctx & Hat & _ & _ & _ & Hab).
  - reflexivity.
  - vm_compute. reflexivity.
  - reflexivity.
  - lia.
  - exists w1, w2, state'. rewrite <- (Hab eq_refl eq_refl).
    repeat split; assumption.
Defined.


(** * Further properties of the layer *)

(** ** A command over any connection *)

Lemma issue_any {A} (c : command)
    (exec : Z -> gmap string entry -> result A * gmap string entry) (w : world) :
  issue c exec w =
  if lost w then
    (Throw StoreUnavailable,
     World (now w) (db w) (tail (faults w)) (Ev c false :: oplog w))
  else
    let '(r, d') := exec (now w) (db w) in
    (r, World (now w) d' (tail (faults w)) (Ev c (is_ok r) :: oplog w)).
Proof. destruct w as [t d [|[|] fs] lg]; reflexivity. Qed.

Lemma healthy_not_lost (w : world) : healthy w -> lost w = false.
Proof. unfold healthy, lost. intros ->. reflexivity. Qed.

(** ** [cache], whatever the connection does *)

Section CacheAnyConnection.
Context `{JSON}.

(** X1. [cache.get] never throws and never changes the keyspace; it reads
    [null] whenever its [GET] failed, and a result other than [null] is the
    parse of the text the key holds. *)
Theorem cache_get_soft_fails (key : string) (w : world) :
  exists v ok,
    cache_get key w
    = (Ok v, World (now w) (db w) (tail (faults w))
               (Ev (GET key) ok :: oplog w)) /\
    (ok = false -> v = JNull) /\
    (v <> JNull ->
     exists text dl,
       live (now w) (db w) key = Some (Entry (RStr text) dl) /\
       JSON_parse text = Some v).
Proof.
  unfold cache_get, try_catch, bind, redis_get, ret. rewrite issue_any.
  destruct (lost w).
  { exists JNull, false. split; [reflexivity|]. split; [reflexivity|congruence]. }
  unfold exec_get.
  destruct (live (now w) (db w) key) as [[[text|z] dl]|];
    cbv beta iota zeta; cbn [is_ok].
  - destruct (String.eqb text ""); cbn [negb].
    { exists JNull, true. split; [reflexivity|]. split; congruence. }
    unfold JSON_parse_throw, throw, ret.
    destruct (JSON_parse text) as [v|] eqn:Hparse.
    + exists v, true. split; [reflexivity|]. split; [discriminate|]. eauto.
    + exists JNull, true. split; [reflexivity|]. split; congruence.
  - exists JNull, false. split; [reflexivity|]. split; congruence.
  - exists JNull, true. split; [reflexivity|]. split; congruence.
Qed.

(** X2. [cache.set] never throws. When it returns [true] the TTL was not
    negative and the key holds the serialised value, volatile unless the TTL
    was 0. A command that never reaches the server makes it return [false]
    and leaves the keyspace as it was. A command that the server answers
    succeeds exactly when the TTL is not negative; a negative TTL is refused
    by the server, [cache.set] returns [false] and nothing is stored. *)
Theorem cache_set_outcome (key : string) (value : json) (ttlSeconds : option Z)
    (w : world) :
  exists b c d',
    cache_set key value ttlSeconds w
    = (Ok b, World (now w) d' (tail (faults w)) (Ev c b :: oplog w)) /\
    (b = true ->
     0 <= default 3600 ttlSeconds /\
     d' = <[key := written (now w) (JSON_stringify value) (default 3600 ttlSeconds)]>
            (db w)) /\
    (lost w = true -> b = false /\ d' = db w) /\
    (lost w = false -> default 3600 ttlSeconds < 0 -> b = false /\ d' = db w) /\
    (lost w = false -> 0 <= default 3600 ttlSeconds -> b = true).
Proof.
  unfold cache_set, try_catch, bind, redis_set, redis_setex, ret, written.
  destruct (Z.eqb_spec (default 3600 ttlSeconds) 0) as [E|Hnz]; cbn [negb];
    rewrite issue_any; destruct (lost w).
  - eexists false, _, _. split; [reflexivity|].
    repeat split; try reflexivity; discriminate.
  - eexists true, _, _. split; [reflexivity|].
    repeat split; try reflexivity; try discriminate; lia.
  - eexists false, _, _. split; [reflexivity|].
    repeat split; try reflexivity; discriminate.
  - unfold exec_setex. destruct (Z.leb_spec (default 3600 ttlSeconds) 0).
    + eexists false, _, _. split; [reflexivity|].
      repeat split; try reflexivity; try discriminate; lia.
    + eexists true, _, _. split; [reflexivity|].
      repeat split; try reflexivity; try discriminate; lia.
Qed.

(** X3. [cache.exists] never throws and never changes the keyspace; it
    answers [true] only for a key that is there, and over a working
    connection it answers [true] for every key that is there. *)
Theorem cache_exists_reflects (key : string) (w : world) :
  exists b ok,
    cache_exists key w
    = (Ok b, World (now w) (db w) (tail (faults w))
               (Ev (EXISTS key) ok :: oplog w)) /\
    (b = true -> is_Some (live (now w) (db w) key)) /\
    (lost w = false -> is_Some (live (now w) (db w) key) -> b = true).
Proof.
  unfold cache_exists, try_catch, bind, redis_exists, ret. rewrite issue_any.
  destruct (lost w).
  { exists false, false. split; [reflexivity|]. split; discriminate. }
  unfold exec_exists. destruct (live (now w) (db w) key) as [e|].
  - exists true, true. split; [reflexivity|]. split; eauto.
  - exists false, true. split; [reflexivity|]. split; [discriminate|].
    intros _ [e He]. discriminate.
Qed.

End CacheAnyConnection.

(** ** [cache] over a working connection *)

Lemma cache_del_healthy (key : string) (t : Z) (d : gmap string entry)
    (lg : list event) :
  cache_del key (World t d [] lg)
  = (Ok (match live t d key with Some _ => true | None => false end),
     World t (delete key d) [] (Ev (DEL key) true :: lg)).
Proof.
  unfold cache_del, try_catch, bind, redis_del, ret. rewrite issue_healthy.
  unfold exec_del. destruct (live t d key); reflexivity.
Qed.

Lemma cache_exists_healthy (key : string) (t : Z) (d : gmap string entry)
    (lg : list event) :
  cache_exists key (World t d [] lg)
  = (Ok (match live t d key with Some _ => true | None => false end),
     World t d [] (Ev (EXISTS key) true :: lg)).
Proof.
  unfold cache_exists, try_catch, bind, redis_exists, ret. rewrite issue_healthy.
  unfold exec_exists. destruct (live t d key); reflexivity.
Qed.

Lemma cache_ttl_healthy (key : string) (t : Z) (d : gmap string entry)
    (lg : list event) :
  cache_ttl key (World t d [] lg)
  = (Ok (ttl_of t d key), World t d [] (Ev (TTL key) true :: lg)).
Proof. unfold cache_ttl, try_catch, redis_ttl. rewrite issue_healthy. reflexivity. Qed.

Lemma cache_expire_healthy (key : string) (secs t : Z) (d : gmap string entry)
    (lg : list event) :
  cache_expire key secs (World t d [] lg)
  = (Ok (match live t d key with Some _ => true | None => false end),
     World t (exec_expire key secs t d).2 [] (Ev (EXPIRE key secs) true :: lg)).
Proof.
  unfold cache_expire, try_catch, bind, redis_expire, ret. rewrite issue_healthy.
  unfold exec_expire. destruct (live t d key); [destruct (secs <=? 0)|]; reflexivity.
Qed.

Lemma live_expired (t : Z) (d : gmap string entry) (key : string) (v : rval)
    (dl : Z) :
  dl < t -> live t (<[key := Entry v (Some dl)]> d) key = None.
Proof.
  intros Hlt. rewrite live_insert_eq. unfold is_dead. cbn [e_deadline].
  destruct (Z.ltb_spec dl t); [reflexivity|lia].
Qed.

Lemma ttl_of_volatile (t : Z) (d : gmap string entry) (key : string) (v : rval)
    (dl : Z) :
  t <= dl ->
  ttl_of t (<[key := Entry v (Some dl)]> d) key = (dl - t + 500) / 1000.
Proof.
  intros Hle. unfold ttl_of. rewrite live_insert_volatile by exact Hle. reflexivity.
Qed.

Section CacheLifetime.
Context `{JSON}.

(** X4. A value stored with a positive TTL is gone once the TTL has lapsed:
    [cache.get] reads [null], [cache.exists] answers [false] and [cache.ttl]
    answers [-2]. *)
Theorem cache_entry_expires (key : string) (value : json) (secs : Z)
    (w : world) (dt : Z) :
  healthy w -> 0 < secs -> 1000 * secs < dt ->
  exists w1 w2 w3 w4,
    cache_set key value (Some secs) w = (Ok true, w1) /\
    cache_get key (tick dt w1) = (Ok JNull, w2) /\
    cache_exists key (tick dt w1) = (Ok false, w3) /\
    cache_ttl key (tick dt w1) = (Ok (-2), w4).
Proof.
  destruct w as [t d fs lg]. unfold healthy. cbn [faults]. intros -> Hsecs Hdt.
  unfold cache_set, try_catch, bind, redis_setex, ret. cbn [from_option]. unfold id.
  destruct (Z.eqb_spec secs 0) as [?|_]; [lia|]. cbn [negb].
  rewrite issue_healthy. unfold exec_setex.
  destruct (Z.leb_spec secs 0) as [?|_]; [lia|]. cbv beta iota zeta. cbn [is_ok].
  assert (Hgone : live (t + dt)
            (<[key := Entry (RStr (JSON_stringify value)) (Some (t + 1000 * secs))]> d)
            key = None) by (apply live_expired; lia).
  eexists _, _, _, _. split; [reflexivity|]. unfold tick. cbn [now db faults oplog].
  split; [|split].
  - unfold cache_get, try_catch, bind, redis_get, ret. rewrite issue_healthy.
    unfold exec_get. rewrite Hgone. reflexivity.
  - rewrite cache_exists_healthy, Hgone. reflexivity.
  - rewrite cache_ttl_healthy. unfold ttl_of. rewrite Hgone. reflexivity.
Qed.

(** X5. [cache.del] answers [true] exactly when the key was there; after it
    the key reads [null] and does not exist, a second [cache.del] answers
    [false] and changes nothing, and no other key is touched. *)
Theorem cache_del_removes (key : string) (w : world) (dt : Z) :
  healthy w ->
  exists b w1 w2 w3 w4,
    cache_del key w = (Ok b, w1) /\
    (b = true <-> is_Some (live (now w) (db w) key)) /\
    cache_get key (tick dt w1) = (Ok JNull, w2) /\
    cache_exists key (tick dt w1) = (Ok false, w3) /\
    cache_del key (tick dt w1) = (Ok false, w4) /\ db w4 = db w1 /\
    (forall key', key' <> key -> db w1 !! key' = db w !! key').
Proof.
  destruct w as [t d fs lg]. unfold healthy. cbn [faults now db]. intros ->.
  rewrite cache_del_healthy. eexists _, _, _, _, _. split; [reflexivity|].
  split.
  { destruct (live t d key) as [e|]; split; eauto; try discriminate.
    intros [e He]. discriminate. }
  unfold tick. cbn [now db faults oplog]. split; [|split; [|split; [|split]]].
  - unfold cache_get, try_catch, bind, redis_get, ret. rewrite issue_healthy.
    unfold exec_get. rewrite live_delete_eq. reflexivity.
  - rewrite cache_exists_healthy, live_delete_eq. reflexivity.
  - rewrite cache_del_healthy, live_delete_eq. reflexivity.
  - cbn [db]. apply delete_id, lookup_delete_eq.
  - intros key' Hne. apply lookup_delete_ne. congruence.
Qed.

(** X6. [cache.expire] with a positive TTL on a key that is there answers
    [true] and replaces the time to live of the key: [cache.ttl] then
    answers the new TTL, and the key exists until that many seconds have
    passed and no longer. *)
Theorem cache_expire_sets_ttl (key : string) (secs : Z) (w : world) :
  healthy w -> is_Some (live (now w) (db w) key) -> 0 < secs ->
  exists w1 w2,
    cache_expire key secs w = (Ok true, w1) /\
    cache_ttl key w1 = (Ok secs, w2) /\
    (forall dt, 0 <= dt <= 1000 * secs ->
       exists w3, cache_exists key (tick dt w1) = (Ok true, w3)) /\
    (forall dt, 1000 * secs < dt ->
       exists w3, cache_exists key (tick dt w1) = (Ok false, w3)).
Proof.
  destruct w as [t d fs lg]. unfold healthy. cbn [faults now db].
  intros -> [e Hlive] Hsecs. rewrite cache_expire_healthy, Hlive.
  unfold exec_expire. rewrite Hlive.
  destruct (Z.leb_spec secs 0) as [?|_]; [lia|]. cbn [snd].
  eexists _, _. split; [reflexivity|]. split; [|split].
  - rewrite cache_ttl_healthy, ttl_of_volatile by lia. do 2 f_equal.
    symmetry. apply Z.div_unique with 500; lia.
  - intros dt Hdt. unfold tick. cbn [now db faults oplog].
    rewrite cache_exists_healthy, live_insert_volatile by lia. eauto.
  - intros dt Hdt. unfold tick. cbn [now db faults oplog].
    rewrite cache_exists_healthy, live_expired by lia. eauto.
Qed.

(** X7. [cache.expire] on a key that is not there answers [false] and
    creates nothing; with a TTL that is not positive, on a key that is
    there, it answers [true] and the key is deleted. *)
Theorem cache_expire_edges (key : string) (secs : Z) (w : world) :
  healthy w ->
  (absent w key ->
   exists w1, cache_expire key secs w = (Ok false, w1) /\ db w1 = db w) /\
  (is_Some (live (now w) (db w) key) -> secs <= 0 ->
   exists w1 w2,
     cache_expire key secs w = (Ok true, w1) /\
     cache_exists key w1 = (Ok false, w2)).
Proof.
  destruct w as [t d fs lg]. unfold healthy, absent. cbn [faults now db].
  intros ->. split.
  - intros Habs. rewrite cache_expire_healthy. unfold exec_expire. rewrite Habs.
    eexists. split; reflexivity.
  - intros [e Hlive] Hsecs. rewrite cache_expire_healthy. unfold exec_expire.
    rewrite Hlive. destruct (Z.leb_spec secs 0) as [_|?]; [|lia]. cbn [snd].
    eexists _, _. split; [reflexivity|].
    rewrite cache_exists_healthy, live_delete_eq. reflexivity.
Qed.

(** X8. After [cache.set] with a positive TTL, [cache.ttl] answers that TTL,
    and [dt] milliseconds later the remaining time rounded to the nearest
    second; after [cache.set] with TTL 0 it answers [-1]. *)
Theorem cache_ttl_after_set (key : string) (value : json) (secs : Z)
    (w : world) (dt : Z) :
  healthy w -> 0 < secs -> 0 <= dt <= 1000 * secs ->
  (exists w1 w2 w3,
     cache_set key value (Some secs) w = (Ok true, w1) /\
     cache_ttl key w1 = (Ok secs, w2) /\
     cache_ttl key (tick dt w1) = (Ok ((1000 * secs - dt + 500) / 1000), w3)) /\
  (exists w1 w2,
     cache_set key value (Some 0) w = (Ok true, w1) /\
     cache_ttl key (tick dt w1) = (Ok (-1), w2)).
Proof.
  destruct w as [t d fs lg]. unfold healthy. cbn [faults]. intros -> Hsecs Hdt.
  split.
  - unfold cache_set, try_catch, bind, redis_setex, ret. cbn [from_option]. unfold id.
    destruct (Z.eqb_spec secs 0) as [?|_]; [lia|]. cbn [negb].
    rewrite issue_healthy. unfold exec_setex.
    destruct (Z.leb_spec secs 0) as [?|_]; [lia|]. cbv beta iota zeta. cbn [is_ok].
    eexists _, _, _. split; [reflexivity|]. split.
    + rewrite cache_ttl_healthy, ttl_of_volatile by lia. do 2 f_equal.
      symmetry. apply Z.div_unique with 500; lia.
    + unfold tick. cbn [now db faults oplog].
      rewrite cache_ttl_healthy, ttl_of_volatile by lia. do 3 f_equal. lia.
  - unfold cache_set, try_catch, bind, redis_set, ret. cbn [from_option].
    unfold id. cbn [Z.eqb negb]. rewrite issue_healthy. unfold exec_set. cbv beta iota zeta. cbn [is_ok].
    eexists _, _. split; [reflexivity|]. unfold tick. cbn [now db faults oplog].
    rewrite cache_ttl_healthy. unfold ttl_of. rewrite live_insert_eq. reflexivity.
Qed.

(** X9. When its command is lost, [cache.ttl] does not throw: it answers
    [-1], which is also its answer for a key that never expires. *)
Theorem cache_ttl_outage_as_persistent (key : string) (w_out w : world)
    (v : rval) :
  lost w_out = true -> healthy w ->
  live (now w) (db w) key = Some (Entry v None) ->
  (exists w', cache_ttl key w_out = (Ok (-1), w')) /\
  (exists w', cache_ttl key w = (Ok (-1), w')).
Proof.
  intros Hlost Hw Hlive. split.
  - unfold cache_ttl, try_catch, redis_ttl. rewrite issue_any, Hlost.
    eexists. reflexivity.
  - destruct w as [t d fs lg]. unfold healthy in Hw. cbn [faults now db] in *.
    subst fs. rewrite cache_ttl_healthy. unfold ttl_of. rewrite Hlive.
    eexists. reflexivity.
Qed.

End CacheLifetime.

(** ** [rateLimiter]: a whole window, and the next one *)

Lemma live_of_lookup (t : Z) (d : gmap string entry) (key : string) (v : rval)
    (dl : option Z) :
  d !! key = Some (Entry v dl) ->
  match dl with Some x => t <= x | None => True end ->
  live t d key = Some (Entry v dl).
Proof.
  intros Hd Hle. unfold live, is_dead. rewrite Hd. cbn [e_deadline].
  destruct dl as [x|]; [|reflexivity].
  destruct (Z.ltb_spec x t); [lia|reflexivity].
Qed.

Lemma total_nonneg (delays : list Z) : Forall (Z.le 0) delays -> 0 <= total delays.
Proof.
  unfold total. induction 1 as [|x l Hx _ IH]; cbn [foldr]; [lia|].
  unfold Z.le in Hx. fold (Z.le 0 x) in Hx. lia.
Qed.

(** Later hits of a window, as long as the counter has not expired: the
    i-th of them counts [n + i + 1]. *)
Lemma calls_count (identifier : string) (maxRequests windowSeconds : Z)
    (delays : list Z) :
  forall (t : Z) (d : gmap string entry) (lg : list event) (n : Z)
         (dl : option Z),
    d !! ("ratelimit:" +:+ identifier) = Some (Entry (RStr (string_of_Z n)) dl) ->
    1 <= n -> n + Z.of_nat (length delays) < 2 ^ 63 ->
    Forall (Z.le 0) delays ->
    match dl with Some x => t + total delays <= x | None => True end ->
    let trace := calls identifier (Some maxRequests) (Some windowSeconds) delays
                   (World t d [] lg) in
    length trace = length delays /\
    forall i r ttl, trace !! i = Some (r, ttl) ->
      count r = n + Z.of_nat i + 1 /\
      allowed r = (count r <=? maxRequests) /\
      remaining r = Z.max 0 (maxRequests - count r) /\
      (dl = None -> resetTime r = None /\ ttl = -1).
Proof.
  induction delays as [|dt delays IH]; intros t d lg n dl Hd Hn Hmax Hds Hdl trace.
  { split; [reflexivity|]. intros i r ttl Hi. destruct i; discriminate. }
  inversion Hds as [|? ? Hdt Hds']; subst.
  pose proof (total_nonneg _ Hds') as Htot.
  cbn [length] in Hmax. cbn [total foldr] in Hdl. fold (total delays) in Hdl.
  unfold trace. cbn [calls]. unfold tick. cbn [now db faults oplog].
  rewrite (checkLimit_next identifier maxRequests windowSeconds (t + dt) d lg n dl);
    [|apply live_of_lookup; [exact Hd|destruct dl; [lia|exact I]]|exact Hn|lia].
  cbn [now db].
  destruct (IH (t + dt)
              (<["ratelimit:" +:+ identifier := Entry (RStr (string_of_Z (n + 1))) dl]> d)
              (Ev (TTL ("ratelimit:" +:+ identifier)) true
               :: Ev (INCR ("ratelimit:" +:+ identifier)) true :: lg)
              (n + 1) dl) as [Hlen Hrest];
    [apply lookup_insert_eq|lia|lia|exact Hds'|destruct dl; [lia|exact I]|].
  split; [cbn [length]; rewrite Hlen; reflexivity|].
  intros [|i] r ttl Hi.
  - injection Hi as <- <-. cbn [count allowed remaining resetTime].
    split; [lia|]. split; [reflexivity|]. split; [reflexivity|].
    intros ->. unfold ttl_of. rewrite live_insert_eq. cbn [is_dead e_deadline].
    split; reflexivity.
  - cbn [lookup list_lookup] in Hi. destruct (Hrest i r ttl Hi) as (Hc & Ha & Hr & Hp).
    split; [lia|]. split; [exact Ha|]. split; [exact Hr|exact Hp].
Qed.

Lemma allowed_at_most (maxRequests : Z) (trace : list (limit * Z)) :
  forall k,
    (forall i r ttl, trace !! i = Some (r, ttl) ->
       allowed r = (k + Z.of_nat i + 1 <=? maxRequests)) ->
    Z.of_nat (length (filter (fun rt => allowed rt.1 = true) trace))
    <= Z.max 0 (maxRequests - k).
Proof.
  induction trace as [|[r ttl] trace IH]; intros k Hall; [cbn; lia|].
  assert (Hrest : Z.of_nat (length (filter (fun rt => allowed rt.1 = true) trace))
                  <= Z.max 0 (maxRequests - (k + 1))).
  { apply IH. intros i r' ttl' Hi. rewrite (Hall (S i) r' ttl' Hi). f_equal. lia. }
  pose proof (Hall 0%nat r ttl eq_refl) as Hr. cbn [Z.of_nat] in Hr.
  rewrite filter_cons. cbn [fst].
  destruct (decide (allowed r = true)) as [Ha|Ha]; cbn [length].
  - rewrite Ha in Hr. symmetry in Hr. apply Z.leb_le in Hr. lia.
  - lia.
Qed.

Lemma exec_incr_frame (key key' : string) (t : Z) (d : gmap string entry) :
  key <> key' -> (exec_incr key t d).2 !! key' = d !! key'.
Proof.
  intros Hne. unfold exec_incr.
  destruct (live t d key) as [[[s|z] dl]|]; cbn [snd];
    [|reflexivity|apply lookup_insert_ne; exact Hne].
  destruct (Z_of_string s) as [n|]; [|reflexivity].
  destruct (int64 n); [|reflexivity].
  destruct (int64 (n + 1)); cbn [snd]; [apply lookup_insert_ne; exact Hne|reflexivity].
Qed.

Lemma exec_expire_frame (key key' : string) (secs t : Z) (d : gmap string entry) :
  key <> key' -> (exec_expire key secs t d).2 !! key' = d !! key'.
Proof.
  intros Hne. unfold exec_expire. destruct (live t d key) as [e|]; [|reflexivity].
  destruct (secs <=? 0); cbn [snd];
    [apply lookup_delete_ne|apply lookup_insert_ne]; exact Hne.
Qed.

Lemma ratelimit_key_inj (id1 id2 : string) :
  "ratelimit:" +:+ id1 = "ratelimit:" +:+ id2 -> id1 = id2.
Proof. intros [= E]. exact E. Qed.

Section RateLimiterWindows.

(** X10. Over a working connection, the calls made for a fresh identifier
    within one window count 1, 2, 3, ...: the i-th is allowed exactly when
    i is at most [maxRequests], so no more than [maxRequests] calls of the
    window are allowed. *)
Theorem checkLimit_admits_at_most_max (identifier : string)
    (maxRequests windowSeconds : Z) (delays : list Z) (w : world) :
  healthy w -> absent w ("ratelimit:" +:+ identifier) ->
  0 < windowSeconds -> Forall (Z.le 0) delays ->
  total delays <= 1000 * windowSeconds ->
  Z.of_nat (length delays) + 1 < 2 ^ 63 ->
  let trace := calls identifier (Some maxRequests) (Some windowSeconds)
                 (0 :: delays) w in
  length trace = S (length delays) /\
  (forall i r ttl, trace !! i = Some (r, ttl) ->
     count r = Z.of_nat i + 1 /\
     allowed r = (Z.of_nat i + 1 <=? maxRequests) /\
     remaining r = Z.max 0 (maxRequests - (Z.of_nat i + 1))) /\
  Z.of_nat (length (filter (fun rt => allowed rt.1 = true) trace))
  <= Z.max 0 maxRequests.
Proof.
  intros Hw Hfresh Hwin Hds Htot Hlen trace.
  destruct w as [t d fs lg]. unfold healthy, absent in *.
  cbn [faults now db] in *. subst fs.
  assert (Hspec : length trace = S (length delays) /\
    forall i r ttl, trace !! i = Some (r, ttl) ->
      count r = Z.of_nat i + 1 /\
      allowed r = (Z.of_nat i + 1 <=? maxRequests) /\
      remaining r = Z.max 0 (maxRequests - (Z.of_nat i + 1))).
  { unfold trace. cbn [calls]. unfold tick. cbn [now db faults oplog].
    rewrite Z.add_0_r. rewrite checkLimit_first by assumption. cbn [now db].
    destruct (calls_count identifier maxRequests windowSeconds delays t
                (<["ratelimit:" +:+ identifier :=
                     Entry (RStr (string_of_Z 1)) (Some (t + 1000 * windowSeconds))]> d)
                (Ev (TTL ("ratelimit:" +:+ identifier)) true
                 :: Ev (EXPIRE ("ratelimit:" +:+ identifier) windowSeconds) true
                 :: Ev (INCR ("ratelimit:" +:+ identifier)) true :: lg)
                1 (Some (t + 1000 * windowSeconds))) as [Hl Hc];
      [apply lookup_insert_eq|reflexivity|lia|exact Hds|lia|].
    split; [cbn [length]; rewrite Hl; reflexivity|].
    intros [|i] r ttl Hi.
    * injection Hi as <- <-. cbn [count allowed remaining]. repeat split.
    * cbn [lookup list_lookup] in Hi.
      destruct (Hc i r ttl Hi) as (Hcount & Ha & Hr & _).
      rewrite Ha, Hr, Hcount. repeat split; try lia; f_equal; lia. }
  destruct Hspec as [Hl Hc]. split; [exact Hl|]. split; [exact Hc|].
  replace (Z.max 0 maxRequests) with (Z.max 0 (maxRequests - 0)) by (f_equal; lia).
  apply allowed_at_most. intros i r ttl Hi.
  destruct (Hc i r ttl Hi) as (_ & Ha & _). exact Ha.
Qed.

(** X11. Once the deadline of a counter has passed, whatever the counter had
    reached, the next call counts 1 again and opens a new window: its
    [resetTime] is [windowSeconds] from now. *)
Theorem checkLimit_new_window (identifier : string)
    (maxRequests windowSeconds : Z) (w : world) (v : rval) (dl : Z) :
  let key := "ratelimit:" +:+ identifier in
  healthy w -> db w !! key = Some (Entry v (Some dl)) -> dl < now w ->
  0 < windowSeconds ->
  exists r w' w'',
    checkLimit identifier (Some maxRequests) (Some windowSeconds) w = (Ok r, w') /\
    count r = 1 /\ allowed r = (1 <=? maxRequests) /\
    resetTime r = Some (now w + windowSeconds * 1000) /\
    cache_ttl key w' = (Ok windowSeconds, w'').
Proof.
  intros key. destruct w as [t d fs lg]. unfold healthy. cbn [faults now db].
  intros -> Hd Hdl Hwin.
  assert (Hgone : live t d key = None).
  { unfold live, is_dead. rewrite Hd. cbn [e_deadline].
    destruct (Z.ltb_spec dl t); [reflexivity|lia]. }
  rewrite checkLimit_first by assumption. fold key.
  eexists _, _, _. split; [reflexivity|]. cbn [count allowed resetTime].
  repeat split. rewrite cache_ttl_healthy, ttl_of_volatile by lia.
  do 2 f_equal. symmetry. apply Z.div_unique with 500; lia.
Qed.

(** X12. [resetLimit] answers whether there was a counter and removes it;
    the next call for the identifier, whenever it comes, counts 1 and opens
    a new window. *)
Theorem resetLimit_restarts (identifier : string)
    (maxRequests windowSeconds : Z) (w : world) (dt : Z) :
  let key := "ratelimit:" +:+ identifier in
  healthy w -> 0 < windowSeconds ->
  exists b w1 r w2,
    resetLimit identifier w = (Ok b, w1) /\
    (b = true <-> is_Some (live (now w) (db w) key)) /\
    checkLimit identifier (Some maxRequests) (Some windowSeconds) (tick dt w1)
      = (Ok r, w2) /\
    count r = 1 /\ allowed r = (1 <=? maxRequests) /\
    resetTime r = Some (now w + dt + windowSeconds * 1000).
Proof.
  intros key. destruct w as [t d fs lg]. unfold healthy. cbn [faults now db].
  intros -> Hwin. unfold resetLimit. fold key. rewrite cache_del_healthy.
  eexists _, _, _, _. split; [reflexivity|]. split.
  { destruct (live t d key) as [e|]; split; eauto; try discriminate.
    intros [e He]. discriminate. }
  unfold tick. cbn [now db faults oplog].
  rewrite checkLimit_first; [|apply live_delete_eq|exact Hwin].
  split; [reflexivity|]. cbn [count allowed resetTime]. repeat split.
Qed.

(** X13. Whatever the connection does, a call for one identifier leaves the
    counter of every other identifier as it was. *)
Theorem checkLimit_isolated (id1 id2 : string)
    (maxRequests windowSeconds : option Z) (w : world) :
  id1 <> id2 ->
  exists r w',
    checkLimit id1 maxRequests windowSeconds w = (Ok r, w') /\
    db w' !! ("ratelimit:" +:+ id2) = db w !! ("ratelimit:" +:+ id2).
Proof.
  intros Hne.
  assert (Hk : "ratelimit:" +:+ id1 <> "ratelimit:" +:+ id2)
    by (intros E%ratelimit_key_inj; contradiction).
  unfold checkLimit, try_catch, bind, redis_incr, redis_expire, redis_ttl,
    Date_now, ret.
  rewrite issue_any. destruct (lost w); [eexists _, _; split; reflexivity|].
  pose proof (exec_incr_frame _ _ (now w) (db w) Hk) as Hincr.
  destruct (exec_incr ("ratelimit:" +:+ id1) (now w) (db w)) as [[c|e] d1];
    cbn [snd] in Hincr; cbv beta iota zeta; cbn [is_ok];
    [|eexists _, _; split; [reflexivity|exact Hincr]].
  destruct (c =? 1).
  - rewrite issue_any. unfold lost at 1. cbn [faults now db oplog].
    destruct (tail (faults w)) as [|[|] fs] eqn:Hfs; cbv beta iota zeta;
      try (eexists _, _; split; [reflexivity|exact Hincr]).
    + pose proof (exec_expire_frame _ _ (default 3600 windowSeconds) (now w) d1 Hk)
        as Hexp.
      destruct (exec_expire ("ratelimit:" +:+ id1) (default 3600 windowSeconds)
                  (now w) d1) as [[x|e] d2]; cbn [snd] in Hexp;
        cbv beta iota zeta; cbn [is_ok].
      * rewrite issue_any. unfold exec_ttl.
        destruct (lost _); eexists _, _; (split; [reflexivity|]);
          cbn [db]; congruence.
      * eexists _, _. split; [reflexivity|]. cbn [db]. congruence.
    + pose proof (exec_expire_frame _ _ (default 3600 windowSeconds) (now w) d1 Hk)
        as Hexp.
      destruct (exec_expire ("ratelimit:" +:+ id1) (default 3600 windowSeconds)
                  (now w) d1) as [[x|e] d2]; cbn [snd] in Hexp;
        cbv beta iota zeta; cbn [is_ok].
      * rewrite issue_any. unfold exec_ttl.
        destruct (lost _); eexists _, _; (split; [reflexivity|]);
          cbn [db]; congruence.
      * eexists _, _. split; [reflexivity|]. cbn [db]. congruence.
  - rewrite issue_any. unfold exec_ttl.
    destruct (lost _); eexists _, _; (split; [reflexivity|exact Hincr]).
Qed.

End RateLimiterWindows.

Section RateLimiterEdges.

(** X14. When the [EXPIRE] of the first call of a window is lost, that call
    fails open and the counter is left without a deadline: it never expires,
    every later call, whenever it comes, counts one more and reports no
    [resetTime], so that once [maxRequests] is passed every call is refused. *)
Theorem checkLimit_lost_expire_never_resets (identifier : string)
    (maxRequests windowSeconds : Z) (delays : list Z) (w : world) :
  faults w = [false; true] -> absent w ("ratelimit:" +:+ identifier) ->
  Forall (Z.le 0) delays -> Z.of_nat (length delays) + 1 < 2 ^ 63 ->
  exists w1,
    checkLimit identifier (Some maxRequests) (Some windowSeconds) w
      = (Ok (fail_open maxRequests), w1) /\
    length (calls identifier (Some maxRequests) (Some windowSeconds) delays w1)
      = length delays /\
    forall i r ttl,
      calls identifier (Some maxRequests) (Some windowSeconds) delays w1 !! i
        = Some (r, ttl) ->
      count r = Z.of_nat i + 2 /\
      allowed r = (Z.of_nat i + 2 <=? maxRequests) /\
      resetTime r = None /\ ttl = -1.
Proof.
  destruct w as [t d fs lg]. unfold absent. cbn [faults now db].
  intros -> Hfresh Hds Hlen.
  unfold checkLimit, try_catch, bind, redis_incr, redis_expire, redis_ttl,
    Date_now, ret. cbn [from_option]. unfold id.
  rewrite issue_any. cbn [lost faults now db oplog tail].
  unfold exec_incr. rewrite Hfresh. cbv beta iota zeta. cbn [Z.eqb Pos.eqb is_ok].
  rewrite issue_any. cbn [lost faults now db oplog tail].
  eexists. split; [reflexivity|].
  destruct (calls_count identifier maxRequests windowSeconds delays t
              (<["ratelimit:" +:+ identifier := Entry (RStr (string_of_Z 1)) None]> d)
              (Ev (EXPIRE ("ratelimit:" +:+ identifier) windowSeconds) false
               :: Ev (INCR ("ratelimit:" +:+ identifier)) true :: lg)
              1 None) as [Hl Hc];
    [apply lookup_insert_eq|reflexivity|lia|exact Hds|exact I|].
  split; [exact Hl|]. intros i r ttl Hi.
  destruct (Hc i r ttl Hi) as (Hcount & Ha & _ & Hp).
  destruct (Hp eq_refl) as [Hreset Httl].
  rewrite Ha, Hcount. repeat split; try assumption; try lia.
Qed.

(** X15. For a later call of a window, [resetTime] is the deadline of the
    counter to within half a second; in the last half second of the window
    it is [null] although the counter is still there. *)
Theorem checkLimit_resetTime_accuracy (identifier : string)
    (maxRequests windowSeconds : Z) (w : world) (n dl : Z) :
  let key := "ratelimit:" +:+ identifier in
  healthy w ->
  live (now w) (db w) key = Some (Entry (RStr (string_of_Z n)) (Some dl)) ->
  1 <= n -> n + 1 < 2 ^ 63 ->
  exists r w',
    checkLimit identifier (Some maxRequests) (Some windowSeconds) w = (Ok r, w') /\
    count r = n + 1 /\
    (dl - now w < 500 -> resetTime r = None) /\
    (500 <= dl - now w ->
     exists rt, resetTime r = Some rt /\ dl - 500 < rt <= dl + 500).
Proof.
  intros key. destruct w as [t d fs lg]. unfold healthy. cbn [faults now db].
  intros -> Hlive Hn Hmax.
  assert (Hle : t <= dl).
  { unfold live, is_dead in Hlive. destruct (d !! key) as [e|]; [|discriminate].
    destruct e as [v [x|]]; cbn [e_deadline] in Hlive; [|discriminate].
    destruct (Z.ltb_spec x t); [discriminate|]. injection Hlive as _ ->. lia. }
  rewrite (checkLimit_next identifier maxRequests windowSeconds t d lg n (Some dl))
    by assumption.
  fold key. eexists _, _. split; [reflexivity|]. cbn [count resetTime].
  split; [reflexivity|]. rewrite ttl_of_volatile by exact Hle.
  pose proof (Z.div_mod (dl - t + 500) 1000 ltac:(lia)) as Hdiv.
  pose proof (Z.mod_pos_bound (dl - t + 500) 1000 ltac:(lia)) as Hmod.
  split.
  - intros Hlast. destruct (Z.ltb_spec 0 ((dl - t + 500) / 1000)); [lia|reflexivity].
  - intros Hearly. destruct (Z.ltb_spec 0 ((dl - t + 500) / 1000)); [|lia].
    eexists. split; [reflexivity|]. lia.
Qed.

End RateLimiterEdges.

(** ** [sessionStore]: one session, and every store *)

Lemma glob_literal (c : ascii) (p s : string) :
  Ascii.eqb c "*" = false -> Ascii.eqb c "?" = false ->
  glob_match (String c p) s = true ->
  exists s', s = String c s' /\ glob_match p s' = true.
Proof.
  intros Hstar Hq. cbn [glob_match]. rewrite Hstar, Hq.
  destruct s as [|c' s']; [discriminate|]. cbn [orb].
  intros [Hc Hp]%andb_true_iff. apply Ascii.eqb_eq in Hc as <-. eauto.
Qed.

(** The keys of the session namespace are the ids prefixed. *)
Lemma glob_session_inv (key : string) :
  glob_match "session:*" key = true -> exists sid, key = "session:" +:+ sid.
Proof.
  intros Hg.
  repeat (apply glob_literal in Hg as (? & -> & Hg); [|reflexivity..]).
  eexists. reflexivity.
Qed.

Section SessionsAnyStore.
Context `{JSON}.

Lemma cache_get_any (key : string) (w : world) :
  cache_get key w
  = (Ok (if lost w then JNull else stored_doc (now w) (db w) key),
     World (now w) (db w) (tail (faults w))
       (Ev (GET key)
          (if lost w then false else is_ok (exec_get key (now w) (db w)).1)
        :: oplog w)).
Proof.
  unfold cache_get, try_catch, bind, redis_get, ret, stored_doc.
  rewrite issue_any. destruct (lost w); [reflexivity|]. unfold exec_get.
  destruct (live (now w) (db w) key) as [[[text|z] dl]|]; cbv beta iota zeta;
    cbn [is_ok fst]; [|reflexivity..].
  destruct (String.eqb text ""); cbn [negb]; [reflexivity|].
  unfold JSON_parse_throw, throw, ret. destruct (JSON_parse text); reflexivity.
Qed.

(** A record pushed for a key is the session stored under an id of the user. *)
Lemma visit_inv (userId key : string) (t : Z) (d : gmap string entry) (r : json) :
  glob_match "session:*" key = true -> visit userId t d key = Some r ->
  exists sid data,
    key = "session:" +:+ sid /\
    stored_doc t d key = data /\
    get_prop data "userId" = Some (JStr userId) /\
    r = JObj (spread {[ "sessionId" := JStr sid ]} (own_props (Some data))).
Proof.
  intros [sid ->]%glob_session_inv. unfold visit.
  destruct (truthy _ && userId_is _ userId) eqn:Hm; [|discriminate].
  intros [= <-]. apply andb_true_iff in Hm as [_ Hu]. unfold userId_is in Hu.
  destruct (get_prop _ "userId") as [[| | |u| |]|] eqn:Hp; try discriminate.
  apply String.eqb_eq in Hu as ->.
  exists sid, (stored_doc t d ("session:" +:+ sid)).
  split; [reflexivity|]. split; [reflexivity|]. split; [exact Hp|].
  unfold session_record. rewrite replace_prefix. reflexivity.
Qed.

Lemma visit_intro (userId sid : string) (t : Z) (d : gmap string entry) :
  get_prop (stored_doc t d ("session:" +:+ sid)) "userId" = Some (JStr userId) ->
  visit userId t d ("session:" +:+ sid)
  = Some (JObj (spread {[ "sessionId" := JStr sid ]}
                  (own_props (Some (stored_doc t d ("session:" +:+ sid)))))).
Proof.
  intros Hp. unfold visit, userId_is. rewrite Hp, String.eqb_refl.
  destruct (stored_doc t d ("session:" +:+ sid)); try discriminate.
  cbn [truthy andb]. unfold session_record. rewrite replace_prefix. reflexivity.
Qed.

(** The loop over any connection: what it pushes, it pushes for one of the
    keys, and it is what a working connection would push. *)
Lemma scan_sessions_any (userId : string) (keys : list string) :
  forall (sessions : list json) (w : world),
  exists more w',
    scan_sessions userId keys sessions w = (Ok (sessions ++ more), w') /\
    now w' = now w /\ db w' = db w /\
    forall r, r ∈ more ->
      exists key, key ∈ keys /\ visit userId (now w) (db w) key = Some r.
Proof.
  induction keys as [|key keys IH]; intros sessions w.
  - exists [], w. cbn [scan_sessions]. rewrite app_nil_r.
    split; [reflexivity|]. split; [reflexivity|]. split; [reflexivity|].
    intros r Hr. inversion Hr.
  - cbn [scan_sessions]. unfold bind. rewrite cache_get_any.
    set (doc := if lost w then JNull else stored_doc (now w) (db w) key).
    set (w1 := World (now w) (db w) (tail (faults w)) _).
    destruct (truthy doc && userId_is doc userId) eqn:Hm.
    + destruct (IH (sessions ++ [session_record key doc]) w1)
        as (more & w' & E & Hnow & Hdb & Hmore).
      exists (session_record key doc :: more), w'. rewrite E.
      split; [rewrite <- app_assoc; reflexivity|]. split; [exact Hnow|].
      split; [exact Hdb|]. intros r [->|Hr]%elem_of_cons.
      * exists key. split; [left|]. unfold doc in *.
        destruct (lost w); [discriminate|]. unfold visit. rewrite Hm. reflexivity.
      * destruct (Hmore r Hr) as (k & Hk & Hv). exists k. split; [right; exact Hk|].
        exact Hv.
    + destruct (IH sessions w1) as (more & w' & E & Hnow & Hdb & Hmore).
      exists more, w'. rewrite E. split; [reflexivity|]. split; [exact Hnow|].
      split; [exact Hdb|]. intros r Hr.
      destruct (Hmore r Hr) as (k & Hk & Hv). exists k. split; [right; exact Hk|].
      exact Hv.
Qed.

(** X16. Over a working connection and whatever the store holds,
    [getUserSessions] returns exactly the sessions of the user: a record is
    returned if and only if it is the document stored under a session key,
    with the user's id in [userId], to which the id read off the key is
    added as [sessionId]; the keyspace is left as it was. *)
Theorem getUserSessions_exact (userId : string) (w : world) :
  healthy w ->
  exists sessions w',
    getUserSessions userId w = (Ok sessions, w') /\ db w' = db w /\
    forall r, r ∈ sessions <->
      exists sid data,
        stored_doc (now w) (db w) ("session:" +:+ sid) = data /\
        get_prop data "userId" = Some (JStr userId) /\
        r = JObj (spread {[ "sessionId" := JStr sid ]} (own_props (Some data))).
Proof.
  destruct w as [t d fs lg]. unfold healthy. cbn [faults now db]. intros ->.
  destruct (getUserSessions_healthy userId t d lg) as [lg' ->].
  eexists _, _. split; [reflexivity|]. split; [reflexivity|].
  intros r. rewrite list_elem_of_omap. split.
  - intros (key & _ & Hg).
    destruct (glob_match "session:*" key) eqn:Hglob; [|discriminate].
    destruct (visit_inv _ _ _ _ _ Hglob Hg) as (sid & data & -> & Hdoc & Hu & Hr).
    eauto.
  - intros (sid & data & Hdoc & Hu & ->). exists ("session:" +:+ sid). split.
    + apply list_elem_of_fmap.
      assert (is_Some (d !! ("session:" +:+ sid))) as [e He].
      { unfold stored_doc, live in Hdoc.
        destruct (d !! ("session:" +:+ sid)) as [e|]; [eauto|].
        subst data. discriminate. }
      exists ("session:" +:+ sid, e). split; [reflexivity|].
      apply elem_of_map_to_list. exact He.
    + rewrite glob_session. subst data. apply visit_intro. exact Hu.
Qed.

(** X17. Whatever the connection does, [getUserSessions] never throws and
    leaves the keyspace as it was; it returns nothing when its [KEYS] is
    lost, and every record it returns is a session of the user that the
    store holds: a failure can hide sessions, never invent one. *)
Theorem getUserSessions_sound (userId : string) (w : world) :
  exists sessions w',
    getUserSessions userId w = (Ok sessions, w') /\ db w' = db w /\
    (lost w = true -> sessions = []) /\
    forall r, r ∈ sessions ->
      exists sid data,
        stored_doc (now w) (db w) ("session:" +:+ sid) = data /\
        get_prop data "userId" = Some (JStr userId) /\
        r = JObj (spread {[ "sessionId" := JStr sid ]} (own_props (Some data))).
Proof.
  unfold getUserSessions, try_catch, bind, redis_keys. rewrite issue_any.
  destruct (lost w) eqn:Hlost.
  { eexists _, _. split; [reflexivity|]. split; [reflexivity|].
    split; [reflexivity|]. intros r Hr. inversion Hr. }
  unfold exec_keys.
  set (keys := filter _ _).
  set (w1 := World (now w) (db w) (tail (faults w)) _).
  destruct (scan_sessions_any userId keys [] w1) as (more & w' & E & Hnow & Hdb & Hmore).
  rewrite E. cbn [app]. eexists _, _. split; [reflexivity|].
  split; [exact Hdb|]. split; [discriminate|].
  intros r Hr. destruct (Hmore r Hr) as (key & Hkey & Hv).
  unfold keys in Hkey. apply list_elem_of_filter in Hkey as [[Hglob _] _].
  destruct (visit_inv _ _ _ _ _ Hglob Hv) as (sid & data & -> & Hdoc & Hu & Hrec).
  eauto.
Qed.

End SessionsAnyStore.

Lemma union_singleton_present {A} (m : gmap string A) (k : string) (v x : A) :
  m !! k = Some v -> m ∪ {[ k := x ]} = m.
Proof.
  intros Hk. apply map_eq. intros i. destruct (decide (i = k)) as [->|Hne].
  - rewrite Hk. apply lookup_union_Some_l. exact Hk.
  - apply lookup_union_l. apply lookup_singleton_ne. congruence.
Qed.

Section SessionLifecycle.
Context `{JSONLaws}.

Lemma getSession_healthy (sid : string) (t : Z) (d : gmap string entry)
    (lg : list event) :
  getSession sid (World t d [] lg)
  = (Ok (stored_doc t d ("session:" +:+ sid)),
     World t d []
       (Ev (GET ("session:" +:+ sid))
          (is_ok (exec_get ("session:" +:+ sid) t d).1) :: lg)).
Proof. unfold getSession. apply cache_get_healthy. Qed.

(** X18. A session that is stored is read back until it expires; after
    [deleteSession] it reads [null], a second [deleteSession] answers
    [false], and through all of it the sessions stored under other ids are
    untouched. *)
Theorem session_lifecycle (sid sid' : string) (data : json)
    (ttlSeconds : option Z) (w : world) (dt : Z) :
  healthy w -> unexpired (default 86400 ttlSeconds) dt -> sid' <> sid ->
  exists w1 w2 w3 w4 w5,
    setSession sid data ttlSeconds w = (Ok true, w1) /\
    getSession sid (tick dt w1) = (Ok data, w2) /\
    deleteSession sid w2 = (Ok true, w3) /\
    getSession sid w3 = (Ok JNull, w4) /\
    deleteSession sid w4 = (Ok false, w5) /\
    db w5 !! ("session:" +:+ sid') = db w !! ("session:" +:+ sid').
Proof.
  destruct w as [t d fs lg]. unfold healthy. cbn [faults now db].
  intros -> Hun Hne.
  assert (Hk : "session:" +:+ sid <> "session:" +:+ sid')
    by (intros E%session_key_inj; congruence).
  unfold setSession.
  destruct (cache_set_accepted ("session:" +:+ sid) data (default 86400 ttlSeconds)
              t d lg) as [ev ->]; [apply Hun|].
  eexists _, _, _, _, _. split; [reflexivity|].
  unfold tick. cbn [now db faults oplog].
  pose proof (live_written t dt d ("session:" +:+ sid) (JSON_stringify data)
                (default 86400 ttlSeconds) Hun) as Hlive.
  split.
  { rewrite getSession_healthy.
    rewrite (stored_doc_live _ _ _ data _ Hlive). reflexivity. }
  split.
  { unfold deleteSession. rewrite cache_del_healthy, Hlive. reflexivity. }
  split.
  { rewrite getSession_healthy. unfold stored_doc. rewrite live_delete_eq.
    reflexivity. }
  split.
  { unfold deleteSession. rewrite cache_del_healthy, live_delete_eq. reflexivity. }
  cbn [db]. rewrite !lookup_delete_ne, lookup_insert_ne by exact Hk. reflexivity.
Qed.

(** X19. [extendSession] on a session that has not expired answers [true]
    and gives it a new time to live counted from the extension: the session
    is then read back for that long, also past its first deadline. *)
Theorem extendSession_prolongs (sid : string) (data : json) (ttl1 ttl2 : Z)
    (w : world) (dt1 dt2 : Z) :
  healthy w -> 0 < ttl1 -> 0 <= dt1 <= 1000 * ttl1 ->
  0 < ttl2 -> 0 <= dt2 <= 1000 * ttl2 ->
  exists w1 w2 w3,
    setSession sid data (Some ttl1) w = (Ok true, w1) /\
    extendSession sid (Some ttl2) (tick dt1 w1) = (Ok true, w2) /\
    getSession sid (tick dt2 w2) = (Ok data, w3).
Proof.
  destruct w as [t d fs lg]. unfold healthy. cbn [faults]. intros -> H1 Hd1 H2 Hd2.
  unfold setSession. cbn [from_option]. unfold id.
  destruct (cache_set_accepted ("session:" +:+ sid) data ttl1 t d lg)
    as [ev ->]; [lia|].
  unfold written. destruct (Z.eqb_spec ttl1 0) as [?|_]; [lia|].
  eexists _, _, _. split; [reflexivity|]. unfold tick. cbn [now db faults oplog].
  unfold extendSession. cbn [from_option]. unfold id.
  rewrite cache_expire_healthy. unfold exec_expire.
  rewrite live_insert_volatile by lia.
  destruct (Z.leb_spec ttl2 0) as [?|_]; [lia|]. cbn [snd e_val].
  split; [reflexivity|]. cbn [now db faults oplog]. rewrite getSession_healthy.
  erewrite stored_doc_live; [reflexivity|]. apply live_insert_volatile. lia.
Qed.

(** X20. [extendSession] on a session whose time to live has lapsed answers
    [false] and does not bring the session back. *)
Theorem extendSession_too_late (sid : string) (data : json) (ttl1 : Z)
    (ttl2 : option Z) (w : world) (dt1 dt2 : Z) :
  healthy w -> 0 < ttl1 -> 1000 * ttl1 < dt1 -> 0 <= dt2 ->
  exists w1 w2 w3,
    setSession sid data (Some ttl1) w = (Ok true, w1) /\
    extendSession sid ttl2 (tick dt1 w1) = (Ok false, w2) /\
    getSession sid (tick dt2 w2) = (Ok JNull, w3).
Proof.
  destruct w as [t d fs lg]. unfold healthy. cbn [faults]. intros -> H1 Hd1 Hd2.
  unfold setSession. cbn [from_option]. unfold id.
  destruct (cache_set_accepted ("session:" +:+ sid) data ttl1 t d lg)
    as [ev ->]; [lia|].
  unfold written. destruct (Z.eqb_spec ttl1 0) as [?|_]; [lia|].
  eexists _, _, _. split; [reflexivity|]. unfold tick. cbn [now db faults oplog].
  unfold extendSession. rewrite cache_expire_healthy. unfold exec_expire.
  rewrite live_expired by lia. cbn [snd]. split; [reflexivity|].
  cbn [now db faults oplog]. rewrite getSession_healthy. unfold stored_doc. rewrite live_expired by lia.
  reflexivity.
Qed.

(** X21. When the data of a session has a [sessionId] property of its own,
    the record [getUserSessions] returns for it is that data unchanged: the
    property stored in the data wins over the id the session is stored
    under. *)
Theorem getUserSessions_data_sessionId_wins (userId sid : string)
    (props : gmap string json) (v : json) (ttlSeconds : option Z) (w : world)
    (dt : Z) :
  healthy w -> unexpired (default 86400 ttlSeconds) dt ->
  props !! "userId" = Some (JStr userId) -> props !! "sessionId" = Some v ->
  exists w1 sessions w2,
    setSession sid (JObj props) ttlSeconds w = (Ok true, w1) /\
    getUserSessions userId (tick dt w1) = (Ok sessions, w2) /\
    JObj props ∈ sessions.
Proof.
  destruct w as [t d fs lg]. unfold healthy. cbn [faults]. intros -> Hun Hu Hs.
  unfold setSession.
  destruct (cache_set_accepted ("session:" +:+ sid) (JObj props)
              (default 86400 ttlSeconds) t d lg) as [ev ->]; [apply Hun|].
  destruct (getUserSessions_healthy userId (t + dt)
              (<["session:" +:+ sid :=
                   written t (JSON_stringify (JObj props))
                     (default 86400 ttlSeconds)]> d) (ev :: lg)) as [lg' Hscan].
  eexists _, _, _. split; [reflexivity|]. split; [exact Hscan|].
  apply list_elem_of_omap. exists ("session:" +:+ sid). split.
  - apply list_elem_of_fmap. eexists (_, _). split; [reflexivity|].
    apply elem_of_map_to_list. apply lookup_insert_eq.
  - rewrite glob_session.
    pose proof (live_written t dt d ("session:" +:+ sid)
                  (JSON_stringify (JObj props)) (default 86400 ttlSeconds) Hun)
      as Hlive.
    rewrite (visit_session userId sid (JObj props) _ _ _ Hlive Hu).
    cbn [own_props]. unfold spread.
    rewrite (union_singleton_present _ _ _ _ Hs). reflexivity.
Qed.

End SessionLifecycle.


(** ** [queue]: the sorted set behind a queue *)

Lemma zremove_absent (member : string) (z : list (string * Z)) :
  member ∉ z.*1 -> zremove member z = z.
Proof.
  induction z as [|[m s] z IH]; [reflexivity|]. rewrite fmap_cons.
  intros [Hne Hnotin]%not_elem_of_cons. cbn [fst] in Hne.
  rewrite zremove_cons_ne by congruence. f_equal. apply IH, Hnotin.
Qed.

Lemma zremove_elem (member : string) (z : list (string * Z)) (x : string * Z) :
  x ∈ zremove member z <-> x.1 <> member /\ x ∈ z.
Proof. unfold zremove. rewrite list_elem_of_filter. reflexivity. Qed.

Lemma zremove_NoDup (member : string) (z : list (string * Z)) :
  NoDup z.*1 -> NoDup (zremove member z).*1.
Proof.
  intros Hnd. apply (sublist_NoDup _ _ Hnd). apply fmap_sublist.
  unfold zremove. apply sublist_filter.
Qed.

Lemma zremove_perm (x : string * Z) (z : list (string * Z)) :
  x ∈ z -> NoDup z.*1 -> z ≡ₚ x :: zremove x.1 z.
Proof.
  induction z as [|[m s] z IH]; [intros []%elem_of_nil|].
  rewrite fmap_cons, NoDup_cons. cbn [fst]. intros Hin [Hm Hnd].
  apply elem_of_cons in Hin as [->|Hin].
  - cbn [fst]. rewrite zremove_cons_eq, zremove_absent by exact Hm. reflexivity.
  - assert (m <> x.1).
    { intros ->. apply Hm. apply list_elem_of_fmap_2. exact Hin. }
    rewrite zremove_cons_ne by assumption.
    rewrite (IH Hin Hnd) at 1. apply Permutation_swap.
Qed.

Lemma zmax_nonempty (z : list (string * Z)) : z <> [] -> is_Some (zmax z).
Proof.
  destruct z as [|a z]; [congruence|]. intros _. cbn [zmax].
  destruct (zmax z) as [y|]; [destruct (zless a y)|]; eexists; reflexivity.
Qed.

Lemma live_not_dead (t : Z) (d : gmap string entry) (key : string) (v v' : rval)
    (dl : option Z) :
  live t d key = Some (Entry v dl) -> is_dead t (Entry v' dl) = false.
Proof.
  unfold live. destruct (d !! key) as [e|]; [|discriminate].
  destruct (is_dead t e) eqn:Hdead; [discriminate|]. intros [= ->]. exact Hdead.
Qed.

(** What a successful [ZPOPMAX] leaves at the key is again a sorted set. *)
Lemma holds_queue_popped (t : Z) (d : gmap string entry) (lg lg' : list event)
    (key member : string) (z : list (string * Z)) (dl : option Z) :
  live t d key = Some (Entry (RZSet z) dl) -> NoDup z.*1 ->
  holds_queue
    (World t (match zremove member z with
              | [] => delete key d
              | z' => <[key := Entry (RZSet z') dl]> d
              end) [] lg')
    key (zremove member z).
Proof.
  intros Hlive Hnd. split; [apply zremove_NoDup, Hnd|]. cbn [now db].
  destruct (zremove member z) as [|a z'].
  - rewrite live_delete_eq. reflexivity.
  - rewrite live_insert_eq, (live_not_dead _ _ _ _ _ _ Hlive). reflexivity.
Qed.

Section QueueAnyConnection.
Context `{JSON}.

(** X22. [addJob] never throws and touches no key but the one of its queue.
    When it returns a job id, that is [job:<time>:<suffix>] and the record of
    the job is a member of the queue with its priority as score. A command
    that never reaches the server makes it return [null] and leaves the
    keyspace as it was. A command that the server answers is refused exactly
    when the key holds a string: [addJob] then returns [null] and nothing is
    stored; otherwise it returns the job id. *)
Theorem addJob_outcome (queueName : string) (jobData : json)
    (priority : option Z) (suffix : string) (w : world) :
  let key := "queue:" +:+ queueName in
  let jobId := "job:" +:+ string_of_Z (now w) +:+ ":" +:+ suffix in
  let member :=
    JSON_stringify (job_record jobId jobData (default 0 priority) (now w)) in
  exists r w',
    addJob queueName jobData priority suffix w = (Ok r, w') /\
    (forall k, k <> key -> db w' !! k = db w !! k) /\
    (forall id, r = Some id ->
       id = jobId /\
       exists z dl,
         live (now w) (db w') key = Some (Entry (RZSet z) dl) /\
         (member, default 0 priority) ∈ z) /\
    (lost w = true -> r = None /\ db w' = db w) /\
    (lost w = false ->
       match live (now w) (db w) key with
       | Some (Entry (RStr _) _) => r = None /\ db w' = db w
       | _ => r = Some jobId
       end).
Proof.
  intros key jobId member.
  unfold addJob, try_catch, bind, Date_now, ret, redis_zadd. cbn [now].
  fold key jobId member. rewrite issue_any. destruct (lost w) eqn:Hlost.
  { eexists _, _. split; [reflexivity|]. cbn [db].
    split; [reflexivity|]. split; [discriminate|].
    split; [split; reflexivity|discriminate]. }
  unfold exec_zadd.
  destruct (live (now w) (db w) key) as [[[s|z] dl]|] eqn:Hlive;
    cbv beta iota zeta; eexists _, _; (split; [reflexivity|]); cbn [db].
  - split; [reflexivity|]. split; [discriminate|].
    split; [discriminate|]. intros _. split; reflexivity.
  - split; [intros k Hk; apply lookup_insert_ne; congruence|].
    split; [|split; [discriminate|reflexivity]].
    intros id [= <-]. split; [reflexivity|]. eexists _, _. split.
    + rewrite live_insert_eq, (live_not_dead _ _ _ _ _ _ Hlive). reflexivity.
    + left.
  - split; [intros k Hk; apply lookup_insert_ne; congruence|].
    split; [|split; [discriminate|reflexivity]].
    intros id [= <-]. split; [reflexivity|]. eexists _, _. split.
    + rewrite live_insert_eq. reflexivity.
    + left.
Qed.

(** X23. [getNextJob] never throws and touches no key but the one of its
    queue; when the command is lost it returns [null] and the queue keeps
    all its jobs. *)
Theorem getNextJob_soft_fails (queueName : string) (w : world) :
  let key := "queue:" +:+ queueName in
  exists r w',
    getNextJob queueName w = (Ok r, w') /\
    (forall k, k <> key -> db w' !! k = db w !! k) /\
    (lost w = true -> r = JNull /\ db w' = db w).
Proof.
  intros key. unfold getNextJob, try_catch, bind, redis_zpopmax. fold key.
  rewrite issue_any. destruct (lost w) eqn:Hlost.
  { eexists _, _. split; [reflexivity|]. cbn [db]. split; [reflexivity|].
    intros _. split; reflexivity. }
  unfold exec_zpopmax.
  assert (Hparse : forall member (w1 : world),
             exists r, (match JSON_parse_throw member w1 with
                        | (Ok a, w2) => (Ok a, w2)
                        | (Throw e, w2) => ret JNull w2
                        end) = (Ok r, w1)).
  { intros member w1. unfold JSON_parse_throw, ret, throw.
    destruct (JSON_parse member); eexists; reflexivity. }
  destruct (live (now w) (db w) key) as [[[s|z] dl]|] eqn:Hlive;
    cbv beta iota zeta.
  - eexists _, _. split; [reflexivity|]. cbn [db].
    split; [reflexivity|discriminate].
  - destruct (zmax z) as [[member score]|]; cbv beta iota zeta.
    + edestruct Hparse as [r ->]. eexists _, _. split; [reflexivity|]. cbn [db].
      split; [|discriminate]. intros k Hk.
      destruct (zremove member z);
        [apply lookup_delete_ne|apply lookup_insert_ne]; congruence.
    + eexists _, _. split; [reflexivity|]. cbn [db].
      split; [|discriminate]. intros k Hk. apply lookup_delete_ne. congruence.
  - eexists _, _. split; [reflexivity|]. cbn [db].
    split; [reflexivity|discriminate].
Qed.

End QueueAnyConnection.

Section QueueContents.
Context `{JSON}.

(** X24. Adding a job whose record is not yet in the queue puts it there
    with its priority as score, next to the jobs that were waiting, and the
    length of the queue grows by one. *)
Theorem addJob_enqueues (queueName : string) (jobData : json)
    (priority : option Z) (suffix : string) (z : list (string * Z))
    (w : world) :
  let key := "queue:" +:+ queueName in
  let jobId := "job:" +:+ string_of_Z (now w) +:+ ":" +:+ suffix in
  let member :=
    JSON_stringify (job_record jobId jobData (default 0 priority) (now w)) in
  healthy w -> holds_queue w key z -> member ∉ z.*1 ->
  exists w1 w2 z',
    addJob queueName jobData priority suffix w = (Ok (Some jobId), w1) /\
    holds_queue w1 key z' /\
    z' ≡ₚ (member, default 0 priority) :: z /\
    getQueueLength queueName w1 = (Ok (Z.of_nat (length z) + 1), w2).
Proof.
  destruct w as [t d fs lg]. change (now (World t d fs lg)) with t.
  intros key jobId member. unfold healthy. cbn [faults]. intros -> [Hnd Hq] Hnew. cbn [now db] in Hq.
  assert (Hadd : addJob queueName jobData priority suffix (World t d [] lg)
                 = addJob queueName jobData (Some (default 0 priority)) suffix
                     (World t d [] lg)) by (destruct priority; reflexivity).
  rewrite Hadd, addJob_healthy. fold key jobId member.
  assert (Hnd' : NoDup ((member, default 0 priority) :: z).*1).
  { rewrite fmap_cons. apply NoDup_cons. split; assumption. }
  assert (Hlen : Z.of_nat (length ((member, default 0 priority) :: z))
                 = Z.of_nat (length z) + 1) by (cbn [length]; lia).
  destruct (live t d key) as [[[s|z0] dl]|] eqn:Hlive; [destruct Hq|subst z0|subst z].
  - rewrite zremove_absent by exact Hnew.
    assert (Hlive' : live t (<[key := Entry (RZSet ((member, default 0 priority) :: z)) dl]> d)
                       key = Some (Entry (RZSet ((member, default 0 priority) :: z)) dl)).
    { rewrite live_insert_eq, (live_not_dead _ _ _ _ _ _ Hlive). reflexivity. }
    eexists _, _, _. split; [reflexivity|]. split.
    { split; [exact Hnd'|]. cbn [now db]. rewrite Hlive'. reflexivity. }
    split; [reflexivity|].
    rewrite (getQueueLength_healthy _ _ _ _ _ _ Hlive'), Hlen. reflexivity.
  - assert (Hlive' : live t (<[key := Entry (RZSet [(member, default 0 priority)]) None]> d)
                       key = Some (Entry (RZSet [(member, default 0 priority)]) None))
      by apply live_insert_eq.
    eexists _, _, _. split; [reflexivity|]. split.
    { split; [exact Hnd'|]. cbn [now db]. rewrite Hlive'. reflexivity. }
    split; [reflexivity|].
    rewrite (getQueueLength_healthy _ _ _ _ _ _ Hlive'). reflexivity.
Qed.

Lemma drain_sorted (queueName : string) (n : nat) :
  forall (z : list (string * Z)) (t : Z) (d : gmap string entry)
         (lg : list event),
    length z = n -> holds_queue (World t d [] lg) ("queue:" +:+ queueName) z ->
    exists zs d' lg',
      drain queueName n (World t d [] lg)
      = (Ok ((fun x => default JNull (JSON_parse x.1)) <$> zs),
         World t d' [] lg') /\
      zs ≡ₚ z /\ non_increasing zs.*2 /\
      holds_queue (World t d' [] lg') ("queue:" +:+ queueName) [].
Proof.
  induction n as [|n IH]; intros z t d lg Hlen Hq.
  - destruct z; [|discriminate]. exists [], d, lg.
    split; [reflexivity|]. split; [reflexivity|]. split; [exact I|exact Hq].
  - destruct Hq as [Hnd Hq]. cbn [now db] in Hq.
    destruct (live t d ("queue:" +:+ queueName)) as [[[s|z0] dl]|] eqn:Hlive;
      [destruct Hq|subst z0|subst z; discriminate].
    destruct (zmax_nonempty z) as [[member score] Hmax];
      [intros ->; discriminate|].
    destruct (zmax_highest _ _ Hmax) as [Hin Hhigh].
    pose proof (zremove_perm _ _ Hin Hnd) as Hperm. cbn [fst] in Hperm.
    assert (Hlen' : length (zremove member z) = n).
    { apply Permutation_length in Hperm. cbn [length] in Hperm. lia. }
    cbn [drain]. unfold bind at 1.
    rewrite (getNextJob_highest _ _ _ _ _ _ _ _ Hlive Hmax).
    destruct (IH _ _ _ (Ev (ZPOPMAX ("queue:" +:+ queueName)) true :: lg) Hlen'
                (holds_queue_popped _ _ lg _ _ member _ _ Hlive Hnd))
      as (zs & d' & lg' & Hdrain & Hzs & Hni & Hend).
    exists ((member, score) :: zs), d', lg'. unfold bind. rewrite Hdrain.
    split; [reflexivity|]. split; [rewrite Hzs, <- Hperm; reflexivity|].
    split; [|exact Hend]. rewrite fmap_cons. cbn [non_increasing snd].
    destruct zs as [|b zs']; [exact I|]. rewrite fmap_cons.
    split; [|exact Hni]. apply (Hhigh b).
    assert (Hb : b ∈ zremove member z) by (rewrite <- Hzs; left).
    apply zremove_elem in Hb as [_ Hb]. exact Hb.
Qed.

(** X25. Taking jobs from a queue until it is empty returns every member
    once, parsed, in an order of priorities that never increases; the queue
    is then empty and the next [getNextJob] returns [null]. *)
Theorem queue_drains_by_priority (queueName : string)
    (z : list (string * Z)) (w : world) :
  let key := "queue:" +:+ queueName in
  healthy w -> holds_queue w key z ->
  exists zs w1 w2,
    drain queueName (length z) w
    = (Ok ((fun x => default JNull (JSON_parse x.1)) <$> zs), w1) /\
    zs ≡ₚ z /\ non_increasing zs.*2 /\
    holds_queue w1 key [] /\
    getNextJob queueName w1 = (Ok JNull, w2).
Proof.
  intros key. destruct w as [t d fs lg]. unfold healthy. cbn [faults].
  intros -> Hq.
  destruct (drain_sorted queueName (length z) z t d lg eq_refl Hq)
    as (zs & d' & lg' & Hdrain & Hzs & Hni & Hend).
  fold key in Hend.
  assert (Hnull : exists w2, getNextJob queueName (World t d' [] lg') = (Ok JNull, w2)).
  { destruct Hend as [_ Hend]. cbn [now db] in Hend.
    unfold getNextJob, try_catch, bind, redis_zpopmax. fold key.
    rewrite issue_healthy. unfold exec_zpopmax.
    destruct (live t d' key) as [[[s|z0] dl]|]; [destruct Hend|subst z0|];
      eexists; reflexivity. }
  destruct Hnull as [w2 Hnull].
  exists zs, (World t d' [] lg'), w2. auto.
Qed.

(** X26. A member that is no JSON text is lost when its turn comes:
    [getNextJob] returns [null] for it, as for an empty queue, and the
    member is gone from the queue. *)
Theorem getNextJob_drops_corrupt (queueName member : string) (score : Z)
    (z : list (string * Z)) (w : world) :
  let key := "queue:" +:+ queueName in
  healthy w -> holds_queue w key z -> zmax z = Some (member, score) ->
  JSON_parse member = None ->
  exists w1 w2,
    getNextJob queueName w = (Ok JNull, w1) /\
    holds_queue w1 key (zremove member z) /\
    (member ∉ (zremove member z).*1) /\
    getQueueLength queueName w1 = (Ok (Z.of_nat (length z) - 1), w2).
Proof.
  intros key. destruct w as [t d fs lg]. unfold healthy. cbn [faults].
  intros -> [Hnd Hq] Hmax Hparse. cbn [now db] in Hq.
  destruct (zmax_highest _ _ Hmax) as [Hin _].
  destruct (live t d key) as [[[s|z0] dl]|] eqn:Hlive;
    [destruct Hq|subst z0|subst z; discriminate].
  rewrite (getNextJob_highest _ _ _ _ _ _ _ _ Hlive Hmax), Hparse. fold key.
  pose proof (holds_queue_popped t d lg
                (Ev (ZPOPMAX key) true :: lg) key member z dl Hlive Hnd) as Hq'.
  pose proof (zremove_perm _ _ Hin Hnd) as Hperm. cbn [fst] in Hperm.
  apply Permutation_length in Hperm. cbn [length] in Hperm.
  assert (Hgone : member ∉ (zremove member z).*1).
  { intros (x & Hx & [Hne _]%zremove_elem)%list_elem_of_fmap_1. congruence. }
  assert (Hlen : exists w2,
             getQueueLength queueName
               (World t (match zremove member z with
                         | [] => delete key d
                         | z' => <[key := Entry (RZSet z') dl]> d
                         end) [] (Ev (ZPOPMAX key) true :: lg))
             = (Ok (Z.of_nat (length z) - 1), w2)).
  { unfold getQueueLength, try_catch, redis_zcard. fold key.
    rewrite issue_healthy. unfold exec_zcard.
    destruct Hq' as [_ Hq']. cbn [now db] in Hq'.
    set (d1 := match zremove member z with
               | [] => delete key d
               | z' => <[key := Entry (RZSet z') dl]> d
               end) in *.
    destruct (live t d1 key) as [[[s|z0] dl']|]; [destruct Hq'|..].
    - rewrite Hq'. eexists. cbv beta iota zeta. do 2 f_equal. lia.
    - rewrite Hq' in Hperm. eexists. cbv beta iota zeta. do 2 f_equal.
      cbn [length] in Hperm. lia. }
  destruct Hlen as [w2 Hlen].
  eexists _, _. split; [reflexivity|]. split; [exact Hq'|].
  split; [exact Hgone|exact Hlen].
Qed.

End QueueContents.


(** ** [conversationCache]: new states, lifetimes, lost reads *)

Section ConversationLifetime.
Context `{JSON}.

(** X27. Over a working connection [updateStep] always succeeds and leaves
    the conversation with two hours to live, whatever time to live
    [setState] gave it before and even when it was stored without one. *)
Theorem updateStep_resets_ttl (contactId : string) (step : json)
    (contextData : option json) (w : world) :
  healthy w ->
  exists w1 w2,
    updateStep contactId step contextData w = (Ok true, w1) /\
    cache_ttl ("conversation:" +:+ contactId) w1 = (Ok 7200, w2).
Proof.
  destruct w as [t d fs lg]. unfold healthy. cbn [faults]. intros ->.
  unfold updateStep, bind, Date_now. rewrite cache_get_healthy. cbn [now].
  rewrite cache_set_healthy. cbn [from_option Z.eqb Z.leb Z.compare]. unfold id.
  eexists _, _. split; [reflexivity|].
  rewrite cache_ttl_healthy, ttl_of_volatile by lia.
  do 2 f_equal. replace (t + 1000 * 7200 - t + 500) with 7200500 by lia.
  reflexivity.
Qed.

End ConversationLifetime.

Lemma conversation_key_inj (id1 id2 : string) :
  "conversation:" +:+ id1 = "conversation:" +:+ id2 -> id1 = id2.
Proof. intros [= E]. exact E. Qed.

Lemma conversation_not_session (contactId sessionId : string) :
  "conversation:" +:+ contactId <> "session:" +:+ sessionId.
Proof. intros [=]. Qed.

Section ConversationStates.
Context `{JSONLaws}.

Lemma getState_healthy (contactId : string) (t : Z) (d : gmap string entry)
    (lg : list event) :
  getState contactId (World t d [] lg)
  = (Ok (stored_doc t d ("conversation:" +:+ contactId)),
     World t d []
       (Ev (GET ("conversation:" +:+ contactId))
          (is_ok (exec_get ("conversation:" +:+ contactId) t d).1) :: lg)).
Proof. unfold getState. apply cache_get_healthy. Qed.

(** X28. When no state is stored for a participant (or a falsy one),
    [updateStep] stores a state made of the step, the given context (empty
    when omitted) and the time of the call, and nothing else. *)
Theorem updateStep_creates (contactId : string) (step : json)
    (contextData : option json) (w : world) (dt : Z) :
  let key := "conversation:" +:+ contactId in
  healthy w -> truthy (stored_doc (now w) (db w) key) = false ->
  0 <= dt <= 7200 * 1000 ->
  exists w1 w2,
    updateStep contactId step contextData w = (Ok true, w1) /\
    getState contactId (tick dt w1)
    = (Ok (JObj (<["updatedAt" := JStr (toISOString (now w))]>
                (<["contextData" := JObj (own_props contextData)]>
                (<["step" := step]> ∅)))), w2).
Proof.
  intros key. destruct w as [t d fs lg]. unfold healthy. cbn [faults now db].
  intros -> Hfalsy Hdt.
  unfold updateStep, bind, Date_now. fold key.
  rewrite cache_get_healthy, Hfalsy. cbn [now].
  rewrite cache_set_healthy. cbn [from_option Z.eqb Z.leb Z.compare]. unfold id.
  eexists _, _. split; [reflexivity|].
  unfold tick. cbn [now db faults oplog]. rewrite getState_healthy. fold key.
  erewrite stored_doc_live; [|apply live_insert_volatile; lia].
  unfold updatedState, spread. cbn [get_prop own_props].
  rewrite lookup_empty. cbn [own_props]. rewrite (right_id_L ∅ (∪)).
  destruct contextData as [c|]; reflexivity.
Qed.

(** X29. When the read of [updateStep] is lost and its write goes through,
    the stored state is replaced by a fresh one: [updateStep] answers [true]
    and what was stored before (other properties, earlier context) is gone. *)
Theorem updateStep_lost_read_forgets (contactId : string) (step : json)
    (contextData : option json) (w : world) (dt : Z) :
  faults w = [true] -> 0 <= dt <= 7200 * 1000 ->
  exists w1 w2,
    updateStep contactId step contextData w = (Ok true, w1) /\
    getState contactId (tick dt w1)
    = (Ok (JObj (<["updatedAt" := JStr (toISOString (now w))]>
                (<["contextData" := JObj (own_props contextData)]>
                (<["step" := step]> ∅)))), w2).
Proof.
  destruct w as [t d fs lg]. cbn [faults now]. intros -> Hdt.
  unfold updateStep, bind, Date_now.
  rewrite cache_get_any. cbn [lost faults tail now db oplog truthy].
  rewrite cache_set_healthy. cbn [from_option Z.eqb Z.leb Z.compare]. unfold id.
  eexists _, _. split; [reflexivity|].
  unfold tick. cbn [now db faults oplog]. rewrite getState_healthy.
  erewrite stored_doc_live; [|apply live_insert_volatile; lia].
  unfold updatedState, spread. cbn [get_prop own_props].
  rewrite lookup_empty. cbn [own_props]. rewrite (right_id_L ∅ (∪)).
  destruct contextData as [c|]; reflexivity.
Qed.

(** X30. A state stored by [setState] with [ttlSeconds] omitted is read
    back for two hours and reads [null] after that; [clearState] removes it
    at once; none of this touches the session stored under the same id. *)
Theorem conversation_lifecycle (contactId : string) (data : json) (w : world)
    (dt late : Z) :
  healthy w -> 0 <= dt <= 7200 * 1000 -> 7200 * 1000 < late ->
  exists w1 w2 w3 w4 w5,
    setState contactId data None w = (Ok true, w1) /\
    getState contactId (tick dt w1) = (Ok data, w2) /\
    getState contactId (tick late w1) = (Ok JNull, w3) /\
    clearState contactId w2 = (Ok true, w4) /\
    getState contactId w4 = (Ok JNull, w5) /\
    db w5 !! ("session:" +:+ contactId) = db w !! ("session:" +:+ contactId).
Proof.
  destruct w as [t d fs lg]. unfold healthy. cbn [faults]. intros -> Hdt Hlate.
  unfold setState. cbn [from_option]. unfold id.
  destruct (cache_set_accepted ("conversation:" +:+ contactId) data 7200 t d lg)
    as [ev ->]; [lia|].
  unfold written. cbn [Z.eqb].
  eexists _, _, _, _, _. split; [reflexivity|].
  unfold tick. cbn [now db faults oplog].
  split.
  { rewrite getState_healthy.
    erewrite stored_doc_live; [reflexivity|]. apply live_insert_volatile. lia. }
  split.
  { rewrite getState_healthy. unfold stored_doc. rewrite live_expired by lia.
    reflexivity. }
  split.
  { unfold clearState. rewrite cache_del_healthy.
    rewrite live_insert_volatile by lia. reflexivity. }
  split.
  { rewrite getState_healthy. unfold stored_doc. rewrite live_delete_eq.
    reflexivity. }
  cbn [db]. rewrite lookup_delete_ne, lookup_insert_ne
    by apply conversation_not_session. reflexivity.
Qed.

End ConversationStates.


(** ** The further properties on sample worlds *)

Lemma cache_entry_expires_witness :
  exists w1 w2 w3 w4,
    cache_set "greeting" (JStr "hello") (Some 60) empty_store = (Ok true, w1) /\
    cache_get "greeting" (tick 61000 w1) = (Ok JNull, w2) /\
    cache_exists "greeting" (tick 61000 w1) = (Ok false, w3) /\
    cache_ttl "greeting" (tick 61000 w1) = (Ok (-2), w4).
Proof.
  apply (cache_entry_expires "greeting" (JStr "hello") 60 empty_store 61000);
    [reflexivity|lia|lia].
Defined.

Lemma cache_del_removes_witness :
  exists b w1 w2 w3 w4,
    cache_del "greeting" cached_store = (Ok b, w1) /\
    (b = true <-> is_Some (live (now cached_store) (db cached_store) "greeting")) /\
    cache_get "greeting" (tick 5 w1) = (Ok JNull, w2) /\
    cache_exists "greeting" (tick 5 w1) = (Ok false, w3) /\
    cache_del "greeting" (tick 5 w1) = (Ok false, w4) /\ db w4 = db w1 /\
    (forall key', key' <> "greeting" -> db w1 !! key' = db cached_store !! key').
Proof. apply (cache_del_removes "greeting" cached_store 5). reflexivity. Defined.

Lemma cache_expire_sets_ttl_witness :
  exists w1 w2,
    cache_expire "greeting" 30 cached_store = (Ok true, w1) /\
    cache_ttl "greeting" w1 = (Ok 30, w2) /\
    (forall dt, 0 <= dt <= 1000 * 30 ->
       exists w3, cache_exists "greeting" (tick dt w1) = (Ok true, w3)) /\
    (forall dt, 1000 * 30 < dt ->
       exists w3, cache_exists "greeting" (tick dt w1) = (Ok false, w3)).
Proof.
  apply (cache_expire_sets_ttl "greeting" 30 cached_store);
    [reflexivity|eexists; reflexivity|lia].
Defined.

Lemma cache_expire_edges_witness :
  (exists w1,
     cache_expire "farewell" 30 cached_store = (Ok false, w1) /\
     db w1 = db cached_store) /\
  (exists w1 w2,
     cache_expire "greeting" 0 cached_store = (Ok true, w1) /\
     cache_exists "greeting" w1 = (Ok false, w2)).
Proof.
  split.
  - apply (proj1 (cache_expire_edges "farewell" 30 cached_store eq_refl)).
    reflexivity.
  - apply (proj2 (cache_expire_edges "greeting" 0 cached_store eq_refl));
      [eexists; reflexivity|lia].
Defined.

Lemma cache_ttl_after_set_witness :
  (exists w1 w2 w3,
     cache_set "greeting" (JStr "hello") (Some 60) empty_store = (Ok true, w1) /\
     cache_ttl "greeting" w1 = (Ok 60, w2) /\
     cache_ttl "greeting" (tick 1400 w1)
     = (Ok ((1000 * 60 - 1400 + 500) / 1000), w3)) /\
  (exists w1 w2,
     cache_set "greeting" (JStr "hello") (Some 0) empty_store = (Ok true, w1) /\
     cache_ttl "greeting" (tick 1400 w1) = (Ok (-1), w2)).
Proof.
  apply (cache_ttl_after_set "greeting" (JStr "hello") 60 empty_store 1400);
    [reflexivity|lia|lia].
Defined.

Lemma cache_ttl_outage_as_persistent_witness :
  (exists w', cache_ttl "greeting" unreachable_store = (Ok (-1), w')) /\
  (exists w', cache_ttl "greeting" cached_store = (Ok (-1), w')).
Proof.
  apply (cache_ttl_outage_as_persistent "greeting" unreachable_store cached_store
           (RStr "1")); reflexivity.
Defined.

Lemma checkLimit_admits_at_most_max_witness :
  let trace := calls "alice" (Some 3) (Some 60) [0; 1000; 2000; 3000] empty_store in
  length trace = 4%nat /\
  (forall i r ttl, trace !! i = Some (r, ttl) ->
     count r = Z.of_nat i + 1 /\
     allowed r = (Z.of_nat i + 1 <=? 3) /\
     remaining r = Z.max 0 (3 - (Z.of_nat i + 1))) /\
  Z.of_nat (length (filter (fun rt => allowed rt.1 = true) trace)) <= Z.max 0 3.
Proof.
  apply (checkLimit_admits_at_most_max "alice" 3 60 [1000; 2000; 3000] empty_store).
  - reflexivity.
  - reflexivity.
  - lia.
  - repeat constructor; lia.
  - cbn [total foldr]. lia.
  - cbn [length]. lia.
Defined.

Lemma checkLimit_new_window_witness :
  exists r w' w'',
    checkLimit "alice" (Some 3) (Some 60) stale_counter = (Ok r, w') /\
    count r = 1 /\ allowed r = (1 <=? 3) /\
    resetTime r = Some (now stale_counter + 60 * 1000) /\
    cache_ttl "ratelimit:alice" w' = (Ok 60, w'').
Proof.
  apply (checkLimit_new_window "alice" 3 60 stale_counter (RStr "7") 1699999990000);
    [reflexivity|reflexivity|cbn [now stale_counter]; lia|lia].
Defined.

Lemma resetLimit_restarts_witness :
  exists b w1 r w2,
    resetLimit "alice" counting_store = (Ok b, w1) /\
    (b = true <->
     is_Some (live (now counting_store) (db counting_store) "ratelimit:alice")) /\
    checkLimit "alice" (Some 3) (Some 60) (tick 5000 w1) = (Ok r, w2) /\
    count r = 1 /\ allowed r = (1 <=? 3) /\
    resetTime r = Some (now counting_store + 5000 + 60 * 1000).
Proof.
  apply (resetLimit_restarts "alice" 3 60 counting_store 5000); [reflexivity|lia].
Defined.

Lemma checkLimit_isolated_witness :
  exists r w',
    checkLimit "bob" (Some 3) (Some 60) counting_store = (Ok r, w') /\
    db w' !! "ratelimit:alice" = db counting_store !! "ratelimit:alice".
Proof.
  apply (checkLimit_isolated "bob" "alice" (Some 3) (Some 60) counting_store).
  discriminate.
Defined.

Lemma checkLimit_lost_expire_never_resets_witness :
  exists w1,
    checkLimit "alice" (Some 3) (Some 60) lossy_store = (Ok (fail_open 3), w1) /\
    length (calls "alice" (Some 3) (Some 60) [1000; 100000] w1) = 2%nat /\
    forall i r ttl,
      calls "alice" (Some 3) (Some 60) [1000; 100000] w1 !! i = Some (r, ttl) ->
      count r = Z.of_nat i + 2 /\
      allowed r = (Z.of_nat i + 2 <=? 3) /\
      resetTime r = None /\ ttl = -1.
Proof.
  apply (checkLimit_lost_expire_never_resets "alice" 3 60 [1000; 100000] lossy_store).
  - reflexivity.
  - reflexivity.
  - repeat constructor; lia.
  - cbn [length]. lia.
Defined.

Lemma checkLimit_resetTime_accuracy_witness :
  exists r w',
    checkLimit "alice" (Some 5) (Some 60) counting_store = (Ok r, w') /\
    count r = 3 + 1 /\
    (1700000030000 - now counting_store < 500 -> resetTime r = None) /\
    (500 <= 1700000030000 - now counting_store ->
     exists rt, resetTime r = Some rt /\
                1700000030000 - 500 < rt <= 1700000030000 + 500).
Proof.
  apply (checkLimit_resetTime_accuracy "alice" 5 60 counting_store 3 1700000030000);
    [reflexivity|reflexivity|lia|lia].
Defined.

Lemma getUserSessions_exact_witness :
  exists sessions w',
    getUserSessions "u1" one_session = (Ok sessions, w') /\
    db w' = db one_session /\
    forall r, r ∈ sessions <->
      exists sid data,
        stored_doc (now one_session) (db one_session) ("session:" +:+ sid) = data /\
        get_prop data "userId" = Some (JStr "u1") /\
        r = JObj (spread {[ "sessionId" := JStr sid ]} (own_props (Some data))).
Proof. apply (getUserSessions_exact "u1" one_session). reflexivity. Defined.

Lemma session_lifecycle_witness :
  exists w1 w2 w3 w4 w5,
    setSession "s1" (session_of "u1" "firefox") None empty_store = (Ok true, w1) /\
    getSession "s1" (tick 1000 w1) = (Ok (session_of "u1" "firefox"), w2) /\
    deleteSession "s1" w2 = (Ok true, w3) /\
    getSession "s1" w3 = (Ok JNull, w4) /\
    deleteSession "s1" w4 = (Ok false, w5) /\
    db w5 !! "session:s2" = db empty_store !! "session:s2".
Proof.
  apply (session_lifecycle "s1" "s2" (session_of "u1" "firefox") None empty_store 1000).
  - reflexivity.
  - unfold unexpired. cbn [from_option]. lia.
  - discriminate.
Defined.

Lemma extendSession_prolongs_witness :
  exists w1 w2 w3,
    setSession "s1" (session_of "u1" "firefox") (Some 60) empty_store = (Ok true, w1) /\
    extendSession "s1" (Some 3600) (tick 30000 w1) = (Ok true, w2) /\
    getSession "s1" (tick 100000 w2) = (Ok (session_of "u1" "firefox"), w3).
Proof.
  apply (extendSession_prolongs "s1" (session_of "u1" "firefox") 60 3600 empty_store
           30000 100000); [reflexivity|lia|lia|lia|lia].
Defined.

Lemma extendSession_too_late_witness :
  exists w1 w2 w3,
    setSession "s1" (session_of "u1" "firefox") (Some 60) empty_store = (Ok true, w1) /\
    extendSession "s1" (Some 3600) (tick 61000 w1) = (Ok false, w2) /\
    getSession "s1" (tick 0 w2) = (Ok JNull, w3).
Proof.
  apply (extendSession_too_late "s1" (session_of "u1" "firefox") 60 (Some 3600)
           empty_store 61000 0); [reflexivity|lia|lia|lia].
Defined.

Lemma getUserSessions_data_sessionId_wins_witness :
  let props := <["userId" := JStr "u1"]> {[ "sessionId" := JStr "mine" ]} in
  exists w1 sessions w2,
    setSession "s1" (JObj props) None empty_store = (Ok true, w1) /\
    getUserSessions "u1" (tick 1000 w1) = (Ok sessions, w2) /\
    JObj props ∈ sessions.
Proof.
  apply (getUserSessions_data_sessionId_wins "u1" "s1"
           (<["userId" := JStr "u1"]> {[ "sessionId" := JStr "mine" ]})
           (JStr "mine") None empty_store 1000).
  - reflexivity.
  - unfold unexpired. cbn [from_option]. lia.
  - reflexivity.
  - reflexivity.
Defined.

Lemma addJob_enqueues_witness :
  let member :=
    JSON_stringify
      (job_record "job:1700000000000:k3j" (JStr "hello") 2 1700000000000) in
  exists w1 w2 z',
    addJob "mail" (JStr "hello") (Some 2) "k3j" mail_queue
    = (Ok (Some "job:1700000000000:k3j"), w1) /\
    holds_queue w1 "queue:mail" z' /\
    z' ≡ₚ (member, 2) :: [("[]", 1); ("oops", 3)] /\
    getQueueLength "mail" w1 = (Ok (Z.of_nat 2 + 1), w2).
Proof.
  apply (addJob_enqueues "mail" (JStr "hello") (Some 2) "k3j"
           [("[]", 1); ("oops", 3)] mail_queue).
  - reflexivity.
  - split; [|reflexivity]. apply (bool_decide_unpack _). vm_compute. exact I.
  - apply (bool_decide_unpack _). vm_compute. exact I.
Defined.

Lemma queue_drains_by_priority_witness :
  exists zs w1 w2,
    drain "mail" 2 mail_queue
    = (Ok ((fun x => default JNull (JSON_parse x.1)) <$> zs), w1) /\
    zs ≡ₚ [("[]", 1); ("oops", 3)] /\ non_increasing zs.*2 /\
    holds_queue w1 "queue:mail" [] /\
    getNextJob "mail" w1 = (Ok JNull, w2).
Proof.
  apply (queue_drains_by_priority "mail" [("[]", 1); ("oops", 3)] mail_queue).
  - reflexivity.
  - split; [|reflexivity]. apply (bool_decide_unpack _). vm_compute. exact I.
Defined.

Lemma getNextJob_drops_corrupt_witness :
  exists w1 w2,
    getNextJob "mail" mail_queue = (Ok JNull, w1) /\
    holds_queue w1 "queue:mail" (zremove "oops" [("[]", 1); ("oops", 3)]) /\
    ("oops" ∉ (zremove "oops" [("[]", 1); ("oops", 3)]).*1) /\
    getQueueLength "mail" w1 = (Ok (Z.of_nat 2 - 1), w2).
Proof.
  apply (getNextJob_drops_corrupt "mail" "oops" 3 [("[]", 1); ("oops", 3)]
           mail_queue).
  - reflexivity.
  - split; [|reflexivity]. apply (bool_decide_unpack _). vm_compute. exact I.
  - reflexivity.
  - vm_compute. reflexivity.
Defined.

Lemma updateStep_resets_ttl_witness :
  exists w1 w2,
    updateStep "bob" (JNum 2) None cached_store = (Ok true, w1) /\
    cache_ttl "conversation:bob" w1 = (Ok 7200, w2).
Proof. apply (updateStep_resets_ttl "bob" (JNum 2) None cached_store). reflexivity. Defined.

Lemma updateStep_creates_witness :
  exists w1 w2,
    updateStep "bob" (JNum 1) (Some (JObj {[ "a" := JNum 1 ]})) empty_store
    = (Ok true, w1) /\
    getState "bob" (tick 1000 w1)
    = (Ok (JObj (<["updatedAt" := JStr (toISOString (now empty_store))]>
                (<["contextData" := JObj (own_props (Some (JObj {[ "a" := JNum 1 ]})))]>
                (<["step" := JNum 1]> ∅)))), w2).
Proof.
  apply (updateStep_creates "bob" (JNum 1) (Some (JObj {[ "a" := JNum 1 ]}))
           empty_store 1000); [reflexivity|reflexivity|lia].
Defined.

Lemma updateStep_lost_read_forgets_witness :
  exists w1 w2,
    updateStep "bob" (JNum 2) None fading_talk = (Ok true, w1) /\
    getState "bob" (tick 1000 w1)
    = (Ok (JObj (<["updatedAt" := JStr (toISOString (now fading_talk))]>
                (<["contextData" := JObj (own_props None)]>
                (<["step" := JNum 2]> ∅)))), w2).
Proof.
  apply (updateStep_lost_read_forgets "bob" (JNum 2) None fading_talk 1000);
    [reflexivity|lia].
Defined.

Lemma conversation_lifecycle_witness :
  exists w1 w2 w3 w4 w5,
    setState "bob" (JObj step_one) None empty_store = (Ok true, w1) /\
    getState "bob" (tick 1000 w1) = (Ok (JObj step_one), w2) /\
    getState "bob" (tick 7200001 w1) = (Ok JNull, w3) /\
    clearState "bob" w2 = (Ok true, w4) /\
    getState "bob" w4 = (Ok JNull, w5) /\
    db w5 !! "session:bob" = db empty_store !! "session:bob".
Proof.
  apply (conversation_lifecycle "bob" (JObj step_one) empty_store 1000 7200001);
    [reflexivity|lia|lia].
Defined.
